(** * RandomProof: commitment ledger, randomness drivers, hashing and shuffle

    A shallow embedding of the core of the RandomProof application:
    - [JS]: the ECMAScript number and string operations the sources rely on;
    - [MersenneTwister]: the generator behind [shuffleArray];
    - [Shuffle]: src/utils/shuffle.ts, over a store of arrays;
    - [Hashing], [Keccak]: src/utils/hashing.ts and src/utils/keccak.ts;
    - [WinnerSelection]: the winner slice of WinnerSelection.vue;
    - [RandomProof]: contracts/RandomProof.sol;
    - [MathRandomDriver], [API3QRNGDriver]: two implementations of the
      BlockchainContract interface;
    - [RandomProofViews], [MathRandomDriverOps], [API3QRNGDriverOps]: the
      paginated view of the ledger, and sequences of calls to the drivers;
    - [SeedDriver], [MockBlockchainContract]: the two other test drivers;
    - [Orchestration]: submission, manual verification and the shuffled
      entries of the winner component.

    Definitions come first; every lemma and theorem follows them. *)

From Stdlib Require Import ZArith NArith List String Ascii Lia.
From stdpp Require Import gmap strings list fin_maps sorting.

Local Open Scope Z_scope.

(* ===================================================================== *)
(** ** ECMAScript values                                                  *)
(* ===================================================================== *)

(** A JavaScript string is a sequence of UTF-16 code units. *)
Abbreviation jsstring := (list N).

Module JS.

(** Literal: every character of an ASCII literal is one code unit. *)
Fixpoint js (s : string) : jsstring :=
  match s with
  | EmptyString => []
  | String c s' => N_of_ascii c :: js s'
  end.

(** [ToInt32] and [ToUint32] on an integer-valued number. *)
Definition to_uint32 (z : Z) : Z := z mod 2 ^ 32.

Definition to_int32 (z : Z) : Z :=
  let m := z mod 2 ^ 32 in
  if m <? 2 ^ 31 then m else m - 2 ^ 32.

(** [x << n], [x & y], [x ^ y]: the operands go through [ToInt32] and the
    result is an int32. *)
Definition shl32 (x n : Z) : Z := to_int32 (Z.shiftl (to_int32 x) n).
Definition and32 (x y : Z) : Z := to_int32 (Z.land (to_int32 x) (to_int32 y)).
Definition xor32 (x y : Z) : Z := to_int32 (Z.lxor (to_int32 x) (to_int32 y)).

(** Numbers are IEEE-754 doubles.  Every number met in the modelled code is
    integer valued, so a number is its integer and an arithmetic result is
    the exact integer rounded to the nearest double (53 significant bits,
    ties to even).  The magnitudes stay far below the overflow threshold. *)
Definition round_double (z : Z) : Z :=
  let a := Z.abs z in
  if a <? 2 ^ 53 then z
  else
    let e := Z.log2 a - 52 in
    let q := a / 2 ^ e in
    let r := a mod 2 ^ e in
    let half := 2 ^ (e - 1) in
    let q' := if r <? half then q
              else if half <? r then q + 1
              else if Z.even q then q else q + 1 in
    Z.sgn z * (q' * 2 ^ e).

Definition mul (x y : Z) : Z := round_double (x * y).
Definition add (x y : Z) : Z := round_double (x + y).

(** [Number.MAX_SAFE_INTEGER] and [Number.isSafeInteger]. *)
Definition MAX_SAFE_INTEGER : Z := 2 ^ 53 - 1.
Definition isSafeInteger (z : Z) : bool := Z.abs z <=? MAX_SAFE_INTEGER.

(** *** Hexadecimal digits *)

Definition hex_digit (d : Z) : N :=
  if d <? 10 then Z.to_N (48 + d) else Z.to_N (87 + d).

Definition is_hex_digit (c : N) : bool :=
  ((48 <=? c) && (c <=? 57) || (97 <=? c) && (c <=? 102))%N.

(** Digits of a non-negative integer, most significant first; the fuel
    bounds the number of digits. *)
Fixpoint hex_digits (fuel : nat) (z : Z) (acc : jsstring) : jsstring :=
  match fuel with
  | O => acc
  | S fuel' =>
      if z <? 16 then hex_digit z :: acc
      else hex_digits fuel' (z / 16) (hex_digit (z mod 16) :: acc)
  end.

(** [n.toString(16)] for an integer-valued number: the digits of the
    integer.  (For a number of 2^53 or more the standard leaves the digits
    below the 53 significant bits to the implementation; they are the
    exact ones here.) *)
Definition toString16 (z : Z) : jsstring :=
  let a := Z.abs z in
  let ds := hex_digits (S (Z.to_nat (Z.log2 a))) a [] in
  if z <? 0 then 45%N :: ds else ds.

(** [s.padStart(n, c)] with a one-unit filler, [s.slice(0, n)] for a
    non-negative [n], [s.slice(k)] likewise. *)
Definition padStart (n : nat) (c : N) (s : jsstring) : jsstring :=
  replicate (n - length s) c ++ s.

(** *** White space and [trim] *)

(** WhiteSpace and LineTerminator code units of the ECMAScript grammar. *)
Definition is_whitespace (c : N) : bool :=
  ((9 <=? c) && (c <=? 13) || (c =? 32) || (c =? 160) || (c =? 5760)
   || (8192 <=? c) && (c <=? 8202) || (c =? 8232) || (c =? 8233)
   || (c =? 8239) || (c =? 8287) || (c =? 12288) || (c =? 65279))%N.

Fixpoint trimStart (s : jsstring) : jsstring :=
  match s with
  | [] => []
  | c :: s' => if is_whitespace c then trimStart s' else s
  end.

Definition trimEnd (s : jsstring) : jsstring := rev (trimStart (rev s)).

Definition trim (s : jsstring) : jsstring := trimEnd (trimStart s).

(** *** [parseInt(s, 16)] *)

Definition hex_value (c : N) : option Z :=
  if ((48 <=? c) && (c <=? 57))%N then Some (Z.of_N c - 48)
  else if ((97 <=? c) && (c <=? 102))%N then Some (Z.of_N c - 87)
  else if ((65 <=? c) && (c <=? 70))%N then Some (Z.of_N c - 55)
  else None.

(** Value of the longest prefix of hexadecimal digits; [None] when the
    prefix is empty. *)
Fixpoint hex_prefix (s : jsstring) (acc : option Z) : option Z :=
  match s with
  | [] => acc
  | c :: s' =>
      match hex_value c with
      | Some d => hex_prefix s' (Some (16 * default 0 acc + d))
      | None => acc
      end
  end.

Definition strip_0x (s : jsstring) : jsstring :=
  match s with
  | 48%N :: x :: s' => if ((x =? 120) || (x =? 88))%N then s' else s
  | _ => s
  end.

(** [parseInt(s, 16)]: leading white space, an optional sign, an optional
    [0x] or [0X], then hexadecimal digits.  [None] is [NaN]. *)
Definition parseInt16 (s : jsstring) : option Z :=
  let s1 := trimStart s in
  let '(sign, s2) :=
    match s1 with
    | 45%N :: t => (-1, t)
    | 43%N :: t => (1, t)
    | _ => (1, s1)
    end in
  match hex_prefix (strip_0x s2) None with
  | Some v => Some (round_double (sign * v))
  | None => None
  end.

End JS.

(* ===================================================================== *)
(** ** The Mersenne Twister generator                                     *)
(* ===================================================================== *)

(** [shuffleArray] draws from an object with one method, [random()].  The
    interface below is what the shuffle needs of it: a state made from the
    seed, and a draw that yields a 32-bit integer [x] (the number returned
    by [random()] is [x / 2^32]) together with the next state. *)
Class RandomSource := {
  rs_state : Type;
  rs_seed : Z -> rs_state;
  rs_random_int : rs_state -> Z * rs_state;
  rs_random_int_range : forall s, 0 <= fst (rs_random_int s) < 2 ^ 32
}.

(** The generator of the [mersenne-twister] package that shuffle.ts
    imports: MT19937 as the package implements it, with words kept as
    unsigned 32-bit integers.  Seeded with 5489 its first draw is
    3499211612. *)
Module MersenneTwister.

Definition N : nat := 624.
Definition M : nat := 397.
Definition MATRIX_A : Z := 0x9908b0df.
Definition UPPER_MASK : Z := 0x80000000.
Definition LOWER_MASK : Z := 0x7fffffff.

Record t := { mt : list Z; mti : nat }.

(** [init_seed]: [mt[0] = s >>> 0], then
    [mt[i] = 1812433253 * (mt[i-1] ^ (mt[i-1] >>> 30)) + i] modulo 2^32. *)
Fixpoint init_words (n : nat) (i : Z) (prev : Z) : list Z :=
  match n with
  | O => []
  | S n' =>
      let s := Z.lxor prev (Z.shiftr prev 30) in
      let w := JS.to_uint32 (1812433253 * s + i) in
      w :: init_words n' (i + 1) w
  end.

Definition init_seed (s : Z) : t :=
  let w0 := JS.to_uint32 s in
  {| mt := w0 :: init_words (N - 1) 1 w0; mti := N |}.

Definition word (ws : list Z) (k : nat) : Z := default 0 (ws !! k).

(** One step of the regeneration loop: [mt[kk]] from [mt[kk]], [mt[kk+1]]
    and [mt[(kk + M) mod N]], reading the words already rewritten. *)
Definition twist_at (ws : list Z) (kk : nat) : list Z :=
  let y := Z.lor (Z.land (word ws kk) UPPER_MASK)
                 (Z.land (word ws ((kk + 1) mod N)) LOWER_MASK) in
  let mag := if Z.testbit y 0 then MATRIX_A else 0 in
  <[kk := Z.lxor (Z.lxor (word ws ((kk + M) mod N)) (Z.shiftr y 1)) mag]> ws.

Definition twist (ws : list Z) : list Z := foldl twist_at ws (seq 0 N).

Definition temper (y0 : Z) : Z :=
  let y1 := Z.lxor y0 (Z.shiftr y0 11) in
  let y2 := Z.lxor y1 (Z.land (Z.shiftl y1 7) 0x9d2c5680) in
  let y3 := Z.lxor y2 (Z.land (Z.shiftl y2 15) 0xefc60000) in
  let y4 := Z.lxor y3 (Z.shiftr y3 18) in
  JS.to_uint32 y4.

(** [random_int]: regenerate the block when it is used up, then temper
    the next word. *)
Definition random_int (g : t) : Z * t :=
  let g1 := if (N <=? mti g)%nat then {| mt := twist (mt g); mti := 0 |} else g in
  (temper (word (mt g1) (mti g1)), {| mt := mt g1; mti := S (mti g1) |}).

End MersenneTwister.

#[export] Instance mt19937 : RandomSource.
Proof.
  refine {| rs_state := MersenneTwister.t;
            rs_seed := MersenneTwister.init_seed;
            rs_random_int := MersenneTwister.random_int |}.
  intros s. unfold MersenneTwister.random_int, MersenneTwister.temper, JS.to_uint32.
  cbn [fst]. apply Z.mod_pos_bound. reflexivity.
Defined.

(* ===================================================================== *)
(** ** src/utils/shuffle.ts                                               *)
(* ===================================================================== *)

(** Arrays are objects: a variable holds a reference into a store, and an
    assignment to an element changes the array every holder of the
    reference sees. *)
Abbreviation loc := positive.
Abbreviation heap := (gmap positive (list jsstring)).

Module Shuffle.

(** [Math.floor(mt.random() * (i + 1))] for the 32-bit draw [x]:
    [random()] is [x / 2^32] exactly, the product is rounded to a double
    (scaling by a power of two commutes with the rounding), then floored. *)
Definition random_index (x : Z) (i : nat) : nat :=
  Z.to_nat (JS.round_double (x * (Z.of_nat i + 1)) / 2 ^ 32).

(** [[a[i], a[j]] = [a[j], a[i]]] on the array at [l]: the right-hand side
    is read first, then [a[i]] and [a[j]] are written in that order.  Both
    indices are inside the array at every call made by [fisher_yates]
    ([random_index_le] below), so the case of a hole or of an array grown
    by an assignment past its end does not arise; the model leaves the
    store as it is there. *)
Definition swap_elements (h : heap) (l : loc) (i j : nat) : heap :=
  match h !! l with
  | Some a =>
      match a !! j, a !! i with
      | Some aj, Some ai => <[l := <[j := ai]> (<[i := aj]> a)]> h
      | _, _ => h
      end
  | None => h
  end.

Section WithGenerator.
Context {G : RandomSource}.

(** [for (let i = shuffled.length - 1; i > 0; i--)]: the body at [i], then
    the loop from [i - 1]. *)
Fixpoint fisher_yates (i : nat) (mt : rs_state) (h : heap) (shuffled : loc) : heap :=
  match i with
  | O => h
  | S i' =>
      let '(x, mt') := rs_random_int mt in
      let j := random_index x i in
      fisher_yates i' mt' (swap_elements h shuffled i j) shuffled
  end.

(** [shuffleArray(array, seed)]: the result is a reference to a new array
    and the store after the call.  [None] only for a reference that
    points nowhere, which no JavaScript value does. *)
Definition shuffleArray (h : heap) (array : loc) (seed : Z) : option (loc * heap) :=
  match h !! array with
  | Some a =>
      let mt := rs_seed seed in
      let shuffled := fresh (dom h) in
      let h1 := <[shuffled := a]> h in
      Some (shuffled, fisher_yates (length a - 1) mt h1 shuffled)
  | None => None
  end.

(** The same loop on the array value alone: what the new array holds. *)
Definition swap_list (a : list jsstring) (i j : nat) : list jsstring :=
  match a !! j, a !! i with
  | Some aj, Some ai => <[j := ai]> (<[i := aj]> a)
  | _, _ => a
  end.

Fixpoint fisher_yates_list (i : nat) (mt : rs_state) (a : list jsstring) : list jsstring :=
  match i with
  | O => a
  | S i' =>
      let '(x, mt') := rs_random_int mt in
      fisher_yates_list i' mt' (swap_list a i (random_index x i))
  end.

Definition shuffled_value (a : list jsstring) (seed : Z) : list jsstring :=
  fisher_yates_list (length a - 1) (rs_seed seed) a.

End WithGenerator.
End Shuffle.

(* ===================================================================== *)
(** ** src/utils/hashing.ts                                               *)
(* ===================================================================== *)

Module Hashing.

(** Two lowercase hexadecimal digits per byte:
    [b.toString(16).padStart(2, '0')], joined. *)
Definition hex_of_byte (b : Z) : jsstring := JS.padStart 2 48%N (JS.toString16 b).

Definition hex_of_bytes (bs : list Z) : jsstring := concat (map hex_of_byte bs).

Section WithPlatform.
(** The platform primitives: [TextEncoder.encode] (UTF-8) and
    [crypto.subtle.digest('SHA-256', _)], on byte sequences. *)
Variable encode : jsstring -> list Z.
Variable digest_sha256 : list Z -> list Z.

Definition sha256Hash (input : jsstring) : jsstring :=
  let data := encode input in
  let hashBuffer := digest_sha256 data in
  hex_of_bytes hashBuffer.

(** The entity hash of a submission, [sha256Hash(processedData + salt)]:
    the salt is appended with no separator. *)
Definition computeEntityHash (processedData salt : jsstring) : jsstring :=
  sha256Hash (processedData ++ salt).

End WithPlatform.
End Hashing.

(* ===================================================================== *)
(** ** src/utils/keccak.ts                                                *)
(* ===================================================================== *)

Module Keccak.

Definition ZERO_BYTES32 : jsstring :=
  JS.js "0x0000000000000000000000000000000000000000000000000000000000000000".

(** First pass of [simpleFallbackHash]:
    [hash = ((hash << 5) - hash) + char; hash = hash & hash]. *)
Definition hash_step (hash : Z) (char : N) : Z :=
  let hash' := JS.add (JS.add (JS.shl32 hash 5) (- hash)) (Z.of_N char) in
  JS.and32 hash' hash'.

(** Second pass: [hash2 ^= char; hash2 *= 0x01000193].  The product is a
    number, not an int32: it is rounded to a double and cut to 32 bits
    only by the next [^=]. *)
Definition hash2_step (hash2 : Z) (char : N) : Z :=
  JS.mul (JS.xor32 hash2 (Z.of_N char)) 0x01000193.

Definition simpleFallbackHash (input : jsstring) : jsstring :=
  let hash := foldl hash_step 0 input in
  let hash2 := foldl hash2_step 0x811c9dc5 input in
  let combined := JS.toString16 (JS.add (Z.abs hash) (Z.abs hash2)) in
  JS.js "0x" ++ take 64 (JS.padStart 64 48%N combined).

Section WithKeccak.
(** [keccak('keccak256').update(input).digest()]: the digest bytes, or
    [None] when the library throws. *)
Variable keccak256 : jsstring -> option (list Z).

(** The version with the fallback. *)
Definition stringToBytes32 (input : jsstring) : jsstring :=
  match keccak256 input with
  | Some hash => JS.js "0x" ++ Hashing.hex_of_bytes hash
  | None => simpleFallbackHash input
  end.

(** [!salt]: null, undefined and the empty string are falsy. *)
Definition falsy (salt : option jsstring) : bool :=
  match salt with
  | None => true
  | Some s => bool_decide (s = [])
  end.

Definition saltToBytes32 (salt : option jsstring) : jsstring :=
  match salt with
  | None => ZERO_BYTES32
  | Some s =>
      if falsy salt || bool_decide (JS.trim s = []) then ZERO_BYTES32
      else stringToBytes32 (JS.trim s)
  end.

(** The version without the fallback: an exception of the library
    propagates ([None]). *)
Definition stringToBytes32_strict (input : jsstring) : option jsstring :=
  match keccak256 input with
  | Some hash => Some (JS.js "0x" ++ Hashing.hex_of_bytes hash)
  | None => None
  end.

Definition saltToBytes32_strict (salt : option jsstring) : option jsstring :=
  match salt with
  | None => Some ZERO_BYTES32
  | Some s =>
      if falsy salt || bool_decide (JS.trim s = []) then Some ZERO_BYTES32
      else stringToBytes32_strict (JS.trim s)
  end.

End WithKeccak.
End Keccak.

(* ===================================================================== *)
(** ** src/components/WinnerSelection.vue                                 *)
(* ===================================================================== *)

Module WinnerSelection.

(** [a.slice(start, end)] with integer arguments: a negative index counts
    from the end, and both are clamped to the array. *)
Definition relative_index (len k : Z) : Z :=
  if k <? 0 then Z.max (len + k) 0 else Z.min k len.

Definition slice {A} (a : list A) (start end_ : Z) : list A :=
  let len := Z.of_nat (length a) in
  let k := relative_index len start in
  let final := relative_index len end_ in
  take (Z.to_nat (Z.max (final - k) 0)) (drop (Z.to_nat k) a).

(** The part of the component the selection reads and writes.
    [numberOfWinners] is the store's winner count, an integer. *)
Record component := {
  shuffledEntries : list jsstring;
  numberOfWinners : Z;
  winners : list jsstring;
  winnersSelected : bool;
  winnersRevealed : bool
}.

Definition autoPickWinners (c : component) : component :=
  let winners := slice (shuffledEntries c) 0 (numberOfWinners c) in
  {| shuffledEntries := shuffledEntries c;
     numberOfWinners := numberOfWinners c;
     winners := winners;
     winnersSelected := true;
     winnersRevealed := false |}.

End WinnerSelection.

(* ===================================================================== *)
(** ** contracts/RandomProof.sol                                          *)
(* ===================================================================== *)

Module RandomProof.

(** [uint256], [bytes32] and [address] values are integers; no arithmetic
    is done on them. *)
Record RandomnessRequest := {
  entityHash : Z;
  salt : Z;
  randomness : Z;
  timestamp : Z;
  fulfilled : bool;
  requester : Z
}.

Definition zero_request : RandomnessRequest :=
  {| entityHash := 0; salt := 0; randomness := 0; timestamp := 0;
     fulfilled := false; requester := 0 |}.

Inductive event :=
| RandomnessRequested (requestId entityHash salt requester : Z)
| RandomnessFulfilled (requestId entityHash randomness : Z)
| EntityProcessed (entityHash salt randomness timestamp : Z).

Inductive error :=
| EntityAlreadyProcessed (entityHash : Z)
| RequestNotFound (requestId : Z)
| OwnableUnauthorizedAccount (account : Z)
| CoordinatorReverted
| PanicIndexOutOfBounds.

Record state := {
  owner : Z;
  s_subscriptionId : Z;
  s_keyHash : Z;
  s_callbackGasLimit : Z;
  s_requestConfirmations : Z;
  s_numWords : Z;
  s_requests : gmap Z RandomnessRequest;
  entityHashToRequestId : gmap Z Z;
  processedEntityHashes : gmap Z bool;
  requestIds : list Z;
  lastRequestId : Z;
  events : list event
}.

(** A call either succeeds with a return value and a new state, or reverts
    and leaves the state as it was. *)
Inductive result (A : Type) :=
| Ok (ret : A) (st : state)
| Revert (e : error).
Arguments Ok {A} ret st.
Arguments Revert {A} e.

Definition constructor (deployer subscriptionId keyHash : Z) : state :=
  {| owner := deployer;
     s_subscriptionId := subscriptionId;
     s_keyHash := keyHash;
     s_callbackGasLimit := 100000;
     s_requestConfirmations := 3;
     s_numWords := 1;
     s_requests := ∅;
     entityHashToRequestId := ∅;
     processedEntityHashes := ∅;
     requestIds := [];
     lastRequestId := 0;
     events := [] |}.

(** A mapping read: a key never written holds the zero value. *)
Definition request_at (st : state) (requestId : Z) : RandomnessRequest :=
  default zero_request (s_requests st !! requestId).

Definition isEntityProcessed (st : state) (entityHash : Z) : bool :=
  default false (processedEntityHashes st !! entityHash).

Definition getRequest (st : state) (requestId : Z) : RandomnessRequest :=
  request_at st requestId.

Definition getRequestByEntityHash (st : state) (entityHash : Z) : RandomnessRequest :=
  let requestId := default 0 (entityHashToRequestId st !! entityHash) in
  request_at st requestId.

Definition getRequestCount (st : state) : Z := Z.of_nat (length (requestIds st)).

(** [requestRandomness(entityHash, salt)] sent by [sender] in a block of
    time [now].  [coordinator] is the outcome of the external call
    [s_vrfCoordinator.requestRandomWords(...)]: the request id it returns,
    or [None] when it reverts.  The coordinator does not call back into
    the contract while it handles the request. *)
Definition requestRandomness (st : state) (sender now : Z) (entityHash salt : Z)
    (coordinator : option Z) : result Z :=
  if isEntityProcessed st entityHash then Revert (EntityAlreadyProcessed entityHash)
  else
    match coordinator with
    | None => Revert CoordinatorReverted
    | Some requestId =>
        let request :=
          {| entityHash := entityHash; salt := salt; randomness := 0;
             timestamp := now; fulfilled := false; requester := sender |} in
        Ok requestId
          {| owner := owner st;
             s_subscriptionId := s_subscriptionId st;
             s_keyHash := s_keyHash st;
             s_callbackGasLimit := s_callbackGasLimit st;
             s_requestConfirmations := s_requestConfirmations st;
             s_numWords := s_numWords st;
             s_requests := <[requestId := request]> (s_requests st);
             entityHashToRequestId := <[entityHash := requestId]> (entityHashToRequestId st);
             processedEntityHashes := <[entityHash := true]> (processedEntityHashes st);
             requestIds := requestIds st ++ [requestId];
             lastRequestId := requestId;
             events := events st ++ [RandomnessRequested requestId entityHash salt sender] |}
    end.

(** [fulfillRandomWords(requestId, randomWords)], the body reached by the
    coordinator's callback, in a block of time [now]. *)
Definition fulfillRandomWords (st : state) (now : Z) (requestId : Z)
    (randomWords : list Z) : result unit :=
  let request := request_at st requestId in
  if timestamp request =? 0 then Revert (RequestNotFound requestId)
  else
    match randomWords !! 0%nat with
    | None => Revert PanicIndexOutOfBounds
    | Some word =>
        let request' :=
          {| entityHash := entityHash request; salt := salt request;
             randomness := word; timestamp := timestamp request;
             fulfilled := true; requester := requester request |} in
        Ok tt
          {| owner := owner st;
             s_subscriptionId := s_subscriptionId st;
             s_keyHash := s_keyHash st;
             s_callbackGasLimit := s_callbackGasLimit st;
             s_requestConfirmations := s_requestConfirmations st;
             s_numWords := s_numWords st;
             s_requests := <[requestId := request']> (s_requests st);
             entityHashToRequestId := entityHashToRequestId st;
             processedEntityHashes := processedEntityHashes st;
             requestIds := requestIds st;
             lastRequestId := lastRequestId st;
             events := events st ++
               [RandomnessFulfilled requestId (entityHash request) word;
                EntityProcessed (entityHash request) (salt request) word now] |}
    end.

(** The owner's setters. *)
Inductive setting := SubscriptionId | KeyHash | CallbackGasLimit | RequestConfirmations.

Definition update (st : state) (sender : Z) (which : setting) (v : Z) : result unit :=
  if negb (sender =? owner st) then Revert (OwnableUnauthorizedAccount sender)
  else
    Ok tt
      {| owner := owner st;
         s_subscriptionId := match which with SubscriptionId => v | _ => s_subscriptionId st end;
         s_keyHash := match which with KeyHash => v | _ => s_keyHash st end;
         s_callbackGasLimit := match which with CallbackGasLimit => v | _ => s_callbackGasLimit st end;
         s_requestConfirmations :=
           match which with RequestConfirmations => v | _ => s_requestConfirmations st end;
         s_numWords := s_numWords st;
         s_requests := s_requests st;
         entityHashToRequestId := entityHashToRequestId st;
         processedEntityHashes := processedEntityHashes st;
         requestIds := requestIds st;
         lastRequestId := lastRequestId st;
         events := events st |}.

(** The transactions that change the contract's storage. *)
Inductive call :=
| CallRequest (sender now entityHash salt : Z) (coordinator : option Z)
| CallFulfill (now requestId : Z) (randomWords : list Z)
| CallUpdate (sender : Z) (which : setting) (v : Z).

Definition state_after {A} (st : state) (r : result A) : state :=
  match r with
  | Ok _ st' => st'
  | Revert _ => st
  end.

Definition exec (st : state) (c : call) : state :=
  match c with
  | CallRequest sender now entityHash salt coordinator =>
      state_after st (requestRandomness st sender now entityHash salt coordinator)
  | CallFulfill now requestId randomWords =>
      state_after st (fulfillRandomWords st now requestId randomWords)
  | CallUpdate sender which v =>
      state_after st (update st sender which v)
  end.

Definition run (st : state) (calls : list call) : state := foldl exec st calls.

(** The stored records have marked hashes, and no two request ids hold
    records of one hash. *)
Definition ledger_invariant (st : state) : Prop :=
  (forall id r, s_requests st !! id = Some r ->
     isEntityProcessed st (entityHash r) = true)
  /\ (forall id1 id2 r1 r2,
        s_requests st !! id1 = Some r1 -> s_requests st !! id2 = Some r2 ->
        entityHash r1 = entityHash r2 -> id1 = id2).

End RandomProof.

(* ===================================================================== *)
(** ** src/utils/mathRandomDriver.ts                                      *)
(* ===================================================================== *)

Module MathRandomDriver.

Record PendingRequest := {
  transactionId : jsstring;
  saltBytes32 : jsstring;
  timestamp : Z
}.

(** The two maps of the driver, and what [persistData] last wrote to
    localStorage (a copy of both maps). *)
Record t := {
  pendingRequests : gmap jsstring PendingRequest;
  completedResults : gmap jsstring Z;
  persisted : option (gmap jsstring Z * gmap jsstring PendingRequest)
}.

Definition empty : t :=
  {| pendingRequests := ∅; completedResults := ∅; persisted := None |}.

Definition persistData (d : t) : t :=
  {| pendingRequests := pendingRequests d;
     completedResults := completedResults d;
     persisted := Some (completedResults d, pendingRequests d) |}.

(** The string hash both branches of [fetchRandomness] compute:
    [hash = ((hash << 5) - hash) + char; hash = hash & hash]. *)
Definition entity_hash_code (entityHash : jsstring) : Z :=
  foldl Keccak.hash_step 0 entityHash.

(** [requestRandomness(entityHash, saltBytes32)] at time [now] (the value
    of [Date.now()]); [randomPart] is
    [Math.random().toString(36).substring(2, 9)]. *)
Definition requestRandomness (d : t) (now : Z) (randomPart : jsstring)
    (entityHash saltBytes32 : jsstring) : jsstring * t :=
  match completedResults d !! entityHash with
  | Some _ =>
      match pendingRequests d !! entityHash with
      | Some existingRequest => (transactionId existingRequest, d)
      | None => (JS.js "0x" ++ take 16 entityHash ++ JS.js "_completed", d)
      end
  | None =>
      let transactionId := JS.js "0x" ++ JS.toString16 now ++ randomPart in
      let request :=
        {| transactionId := transactionId; saltBytes32 := saltBytes32;
           timestamp := now |} in
      (transactionId,
       persistData
         {| pendingRequests := <[entityHash := request]> (pendingRequests d);
            completedResults := completedResults d;
            persisted := persisted d |})
  end.

(** [fetchRandomness(entityHash)] at time [now]; [rnd] is the value of
    [Math.floor(Math.random() * 1000000)], an integer from 0 to 999999. *)
Definition fetchRandomness (d : t) (now rnd : Z) (entityHash : jsstring) : Z * t :=
  match completedResults d !! entityHash with
  | Some existingResult => (existingResult, d)
  | None =>
      match pendingRequests d !! entityHash with
      | None =>
          let hash := entity_hash_code entityHash in
          let randomValue := JS.add (Z.abs hash) rnd in
          (randomValue,
           persistData
             {| pendingRequests := pendingRequests d;
                completedResults := <[entityHash := randomValue]> (completedResults d);
                persisted := persisted d |})
      | Some request =>
          let elapsedTime := now - timestamp request in
          if elapsedTime <? 2000 then (0, d)
          else
            let hash := entity_hash_code entityHash in
            let randomValue := JS.add (JS.mul (Z.abs hash) 997) rnd in
            (randomValue,
             persistData
               {| pendingRequests := delete entityHash (pendingRequests d);
                  completedResults := <[entityHash := randomValue]> (completedResults d);
                  persisted := persisted d |})
      end
  end.

End MathRandomDriver.

(* ===================================================================== *)
(** ** The API3 QRNG driver                                               *)
(* ===================================================================== *)

Module API3QRNGDriver.

Inductive status := pending | completed | failed | unknown.

Record QRNGRequest := {
  requestId : jsstring;
  entityHash : jsstring;
  salt : jsstring;
  timestamp : Z;
  request_status : status
}.

Record QRNGResponse := {
  response_status : status;
  randomNumber : option jsstring
}.

(** What [makeAPICall] yields: the parsed body, or an exception (network
    error, timeout, HTTP error status). *)
Inductive api_result (A : Type) :=
| Responded (body : A)
| Thrown.
Arguments Responded {A} body.
Arguments Thrown {A}.

Record t := {
  pendingRequests : gmap jsstring QRNGRequest;
  entityHashToRequestId : gmap jsstring jsstring
}.

Definition empty : t := {| pendingRequests := ∅; entityHashToRequestId := ∅ |}.

(** [validateInputs]: a 64-character hexadecimal entity hash, a salt of at
    most 1000 characters. *)
Definition is_hex_char (c : N) : bool :=
  (JS.is_hex_digit c || (65 <=? c) && (c <=? 70))%N.

Definition validateInputs (entityHash salt : jsstring) : bool :=
  negb (bool_decide (entityHash = [])
        || negb (length entityHash =? 64)%nat
        || negb (forallb is_hex_char entityHash))
  && negb (negb (bool_decide (salt = [])) && (1000 <? length salt)%nat).

(** [makeQRNGRequest]: on an answer to the POST, both maps record the
    request. *)
Definition makeQRNGRequest (d : t) (now : Z) (entityHash salt : jsstring)
    (api : api_result jsstring) : option (jsstring * t) :=
  match api with
  | Thrown => None
  | Responded rid =>
      Some (rid,
            {| pendingRequests :=
                 <[rid := {| requestId := rid; entityHash := entityHash; salt := salt;
                             timestamp := now; request_status := pending |}]>
                   (pendingRequests d);
               entityHashToRequestId := <[entityHash := rid]> (entityHashToRequestId d) |})
  end.

(** [requestRandomness]: validation, then up to [retryAttempts] attempts;
    [apis] lists the outcome of each attempt's POST in order.  [None] is a
    thrown error. *)
Fixpoint attempt (d : t) (now : Z) (entityHash salt : jsstring)
    (apis : list (api_result jsstring)) : option (jsstring * t) :=
  match apis with
  | [] => None
  | api :: apis' =>
      match makeQRNGRequest d now entityHash salt api with
      | Some r => Some r
      | None => attempt d now entityHash salt apis'
      end
  end.

Definition requestRandomness (d : t) (retryAttempts : nat) (now : Z)
    (entityHash salt : jsstring) (apis : list (api_result jsstring))
    : option (jsstring * t) :=
  if validateInputs entityHash salt
  then attempt d now entityHash salt (take retryAttempts apis)
  else None.

(** [parseRandomNumber]: a leading [0x] is removed, the rest parsed in
    base 16; anything but a positive safe integer throws ([None]). *)
Definition parseRandomNumber (randomHex : jsstring) : option Z :=
  let hex :=
    match randomHex with
    | 48%N :: 120%N :: rest => rest
    | _ => randomHex
    end in
  match JS.parseInt16 hex with
  | Some value =>
      if negb (JS.isSafeInteger value) || (value <=? 0) then None else Some value
  | None => None
  end.

Definition forget (d : t) (entityHash rid : jsstring) : t :=
  {| pendingRequests := delete rid (pendingRequests d);
     entityHashToRequestId := delete entityHash (entityHashToRequestId d) |}.

(** [fetchRandomness(entityHash)]; [api] is the outcome of the status
    call, made only when a request id is known.  Every exception inside
    the [try] ends in [return 0]. *)
Definition fetchRandomness (d : t) (entityHash : jsstring)
    (api : api_result QRNGResponse) : Z * t :=
  match entityHashToRequestId d !! entityHash with
  | None => (0, d)
  | Some rid =>
      if bool_decide (rid = []) then (0, d)
      else
        match api with
        | Thrown => (0, d)
        | Responded response =>
            match response_status response with
            | completed =>
                match randomNumber response with
                | None => (0, d)
                | Some rn =>
                    if bool_decide (rn = []) then (0, d)
                    else
                      let d' := forget d entityHash rid in
                      match parseRandomNumber rn with
                      | Some v => (v, d')
                      | None => (0, d')
                      end
                end
            | pending => (0, d)
            | failed => (0, forget d entityHash rid)
            | unknown => (0, d)
            end
        end
  end.

End API3QRNGDriver.

(* ===================================================================== *)
(** ** Sample data                                                        *)
(* ===================================================================== *)

Module Samples.
Import JS.

Definition four_entries : list jsstring :=
  [js "Alice"; js "Bob"; js "Charlie"; js "David"].

Definition three_entries : WinnerSelection.component :=
  {| WinnerSelection.shuffledEntries := [js "Bob"; js "Alice"; js "Charlie"];
     WinnerSelection.numberOfWinners := 10;
     WinnerSelection.winners := [];
     WinnerSelection.winnersSelected := false;
     WinnerSelection.winnersRevealed := false |}.

(** The ledger right after deployment by account 100. *)
Definition deployed : RandomProof.state := RandomProof.constructor 100 1 77.

(** A well-formed entity hash: 64 hexadecimal digits. *)
Definition sample_hash : jsstring :=
  js "a3f1c2d4e5b60718293a4b5c6d7e8f90a1b2c3d4e5f60718293a4b5c6d7e8f90".

End Samples.

(* ===================================================================== *)
(** ** Shapes of digests                                                  *)
(* ===================================================================== *)

Module Digest.

(** What a digest primitive returns: bytes. *)
Definition is_byte (b : Z) : Prop := 0 <= b < 256.

(** The bytes32 form: [0x] followed by 64 hexadecimal digits. *)
Definition bytes32_shaped (s : jsstring) : Prop :=
  length s = 66%nat /\ take 2 s = JS.js "0x"
  /\ Forall (fun c => JS.is_hex_digit c = true) (drop 2 s).

(** The string hash written as a polynomial: every code unit is added to
    31 times the sum so far. *)
Definition polynomial_hash (s : jsstring) : Z :=
  foldl (fun a c => 31 * a + Z.of_N c) 0 s.

Definition is_code_unit (c : N) : Prop := (c < 65536)%N.

End Digest.

(* ===================================================================== *)
(** ** contracts/RandomProof.sol: the paginated view                      *)
(* ===================================================================== *)

Module RandomProofViews.
Import RandomProof.

Definition MAX_UINT256 : Z := 2 ^ 256 - 1.

(** [for (uint256 i = 0; i < end - offset; i++)
       result[i] = requestIds[offset + i];]
    [steps] turns are left, the next index is [i]. *)
Fixpoint copy_ids (ids : list Z) (offset steps i : nat) (result : list Z) : list Z :=
  match steps with
  | O => result
  | S steps' =>
      copy_ids ids offset steps' (S i)
        (<[i := default 0 (ids !! (offset + i)%nat)]> result)
  end.

(** [getRequestIds(offset, limit)] for two [uint256] arguments.  The sum
    [offset + limit] is checked: [None] is the panic on overflow. *)
Definition getRequestIds (st : state) (offset limit : Z) : option (list Z) :=
  let length := Z.of_nat (length (requestIds st)) in
  if length <=? offset then Some []
  else if MAX_UINT256 <? offset + limit then None
  else
    let end_ := if length <? offset + limit then length else offset + limit in
    let n := Z.to_nat (end_ - offset) in
    Some (copy_ids (requestIds st) (Z.to_nat offset) n 0 (replicate n 0)).

(** The request ids announced by the [RandomnessRequested] events of a
    log, in order. *)
Definition requested_ids (log : list event) : list Z :=
  omap (fun e => match e with
                 | RandomnessRequested requestId _ _ _ => Some requestId
                 | _ => None
                 end) log.


(** A submission answered by the coordinator with the request id [rid]. *)
Definition reuses_id (rid : Z) (c : call) : bool :=
  match c with
  | CallRequest _ _ _ _ (Some rid') => rid' =? rid
  | _ => false
  end.

End RandomProofViews.

(* ===================================================================== *)
(** ** src/utils/mathRandomDriver.ts: clearing, and sequences of calls    *)
(* ===================================================================== *)

Module MathRandomDriverOps.
Import MathRandomDriver.

(** [clearAllData()]: both maps are emptied and both localStorage items
    removed. *)
Definition clearAllData (d : t) : t :=
  {| pendingRequests := ∅; completedResults := ∅; persisted := None |}.

Inductive op :=
| OpRequest (now : Z) (randomPart entityHash saltBytes32 : jsstring)
| OpFetch (now rnd : Z) (entityHash : jsstring)
| OpClear.

Definition exec (d : t) (o : op) : t :=
  match o with
  | OpRequest now randomPart entityHash saltBytes32 =>
      snd (requestRandomness d now randomPart entityHash saltBytes32)
  | OpFetch now rnd entityHash => snd (fetchRandomness d now rnd entityHash)
  | OpClear => clearAllData d
  end.

Definition run (d : t) (ops : list op) : t := foldl exec d ops.

(** [Math.floor(Math.random() * 1000000)] lies between 0 and 999999. *)
Definition random_in_range (o : op) : Prop :=
  match o with
  | OpFetch _ rnd _ => 0 <= rnd < 1000000
  | _ => True
  end.

(** The largest value the driver can make up: [|hash| <= 2^31] times 997
    plus the largest random term. *)
Definition VALUE_BOUND : Z := 2 ^ 31 * 997 + 999999.

(** No entity hash is both waiting and completed, and the completed
    values are within the bound. *)
Definition driver_invariant (d : t) : Prop :=
  (forall h v, completedResults d !! h = Some v -> pendingRequests d !! h = None)
  /\ (forall h v, completedResults d !! h = Some v -> 0 <= v <= VALUE_BOUND).

End MathRandomDriverOps.

(* ===================================================================== *)
(** ** The Math.random driver, version keyed on the hash digits           *)
(* ===================================================================== *)

(** The driver of backend_backup: no stored results, the value is read off
    the first 16 characters of the entity hash. *)
Module SeedDriver.

Record t := {
  pendingRequests : gmap jsstring MathRandomDriver.PendingRequest
}.

Definition requestRandomness (d : t) (now : Z) (entityHash saltBytes32 : jsstring)
    : jsstring * t :=
  let timestamp := now in
  let hashPart := take 8 entityHash in
  let transactionId := JS.js "0x" ++ JS.toString16 timestamp ++ hashPart in
  (transactionId,
   {| pendingRequests :=
        <[entityHash := {| MathRandomDriver.transactionId := transactionId;
                           MathRandomDriver.saltBytes32 := saltBytes32;
                           MathRandomDriver.timestamp := timestamp |}]>
          (pendingRequests d) |}).

(** [seed || 12345]: [NaN] and 0 are falsy. *)
Definition seed_or_fallback (seed : option Z) : Z :=
  match seed with
  | Some v => if v =? 0 then 12345 else v
  | None => 12345
  end.

Definition fetchRandomness (d : t) (now : Z) (entityHash : jsstring) : Z :=
  let hexPart := take 16 entityHash in
  let seed := JS.parseInt16 hexPart in
  match pendingRequests d !! entityHash with
  | Some request =>
      let elapsedTime := now - MathRandomDriver.timestamp request in
      if elapsedTime <? 2000 then 0 else seed_or_fallback seed
  | None => seed_or_fallback seed
  end.

End SeedDriver.

(* ===================================================================== *)
(** ** src/utils/blockchain.ts: the mock contract                         *)
(* ===================================================================== *)

Module MockBlockchainContract.

Definition requestRandomness (now : Z) (entityHash saltBytes32 : jsstring) : jsstring :=
  JS.js "0x" ++ JS.toString16 now ++ take 8 entityHash ++ take 8 (drop 2 saltBytes32).

Definition fetchRandomness (entityHash : jsstring) : Z :=
  Z.abs (foldl Keccak.hash_step 0 entityHash).

End MockBlockchainContract.

(* ===================================================================== *)
(** ** The API3 QRNG driver: cancelling, polling with retries             *)
(* ===================================================================== *)

Module API3QRNGDriverOps.
Import API3QRNGDriver.

(** [cancelRequest(requestId)]: on an answer to the POST the request is
    dropped from [pendingRequests]; a thrown error gives [false]. *)
Definition cancelRequest (d : t) (rid : jsstring) (api : api_result unit) : bool * t :=
  match api with
  | Responded _ =>
      (true, {| pendingRequests := delete rid (pendingRequests d);
                entityHashToRequestId := entityHashToRequestId d |})
  | Thrown => (false, d)
  end.

Definition getPendingRequestsCount (d : t) : nat := size (pendingRequests d).

(** [fetchRandomnessWithRetry] of the resilient driver: up to
    [maxRetries] fetches, the first positive result is returned; [None]
    is the error thrown when all of them are used up.  [apis k] is the
    outcome of the status call of turn [k]. *)
Fixpoint retry_loop (turns : nat) (d : t) (transactionID : jsstring)
    (apis : nat -> api_result QRNGResponse) (retries : nat) : option Z * t :=
  match turns with
  | O => (None, d)
  | S turns' =>
      let '(result, d') := fetchRandomness d transactionID (apis retries) in
      if 0 <? result then (Some result, d')
      else retry_loop turns' d' transactionID apis (S retries)
  end.

Definition fetchRandomnessWithRetry (maxRetries : nat) (d : t) (transactionID : jsstring)
    (apis : nat -> api_result QRNGResponse) : option Z * t :=
  retry_loop maxRetries d transactionID apis 0.

(** A sequence of fetches for one entity hash. *)
Definition poll (d : t) (entityHash : jsstring) (apis : list (api_result QRNGResponse)) : t :=
  foldl (fun d api => snd (fetchRandomness d entityHash api)) d apis.

(** An answer that ends the wait: [completed] with a number, or [failed]. *)
Definition ends_wait (api : api_result QRNGResponse) : bool :=
  match api with
  | Responded r =>
      match response_status r with
      | completed =>
          match randomNumber r with
          | Some rn => negb (bool_decide (rn = []))
          | None => false
          end
      | failed => true
      | _ => false
      end
  | Thrown => false
  end.

End API3QRNGDriverOps.

(* ===================================================================== *)
(** ** Submission, verification and the shuffled entries                  *)
(* ===================================================================== *)

Module Orchestration.

(** [s.split('\n')]. *)
Fixpoint split_newline (s : jsstring) : list jsstring :=
  match s with
  | [] => [[]]
  | c :: s' =>
      if (c =? 10)%N then [] :: split_newline s'
      else
        match split_newline s' with
        | line :: lines => (c :: line) :: lines
        | [] => [[c]]
        end
  end.

(** [lines.join('\n')]. *)
Fixpoint join_newline (lines : list jsstring) : jsstring :=
  match lines with
  | [] => []
  | [line] => line
  | line :: rest => line ++ 10%N :: join_newline rest
  end.

(** [line => line.trim()] as a filter: the lines that are not blank. *)
Definition nonblank (line : jsstring) : Prop := JS.trim line <> [].

#[export] Instance nonblank_dec line : Decision (nonblank line).
Proof. unfold nonblank. apply _. Defined.

(** The order of [sort()] with no comparator: strings compared code unit
    by code unit, a proper prefix first. *)
Fixpoint lex_leb (x y : jsstring) : bool :=
  match x, y with
  | [], _ => true
  | _ :: _, [] => false
  | a :: x', b :: y' =>
      if (a <? b)%N then true
      else if (b <? a)%N then false
      else lex_leb x' y'
  end.

Definition lex_le (x y : jsstring) : Prop := lex_leb x y = true.

#[export] Instance lex_le_dec x y : Decision (lex_le x y).
Proof. unfold lex_le. apply _. Defined.

(** [lines.sort()]: the order being total and antisymmetric, the sorted
    array is the same whatever algorithm the engine uses. *)
Definition sort (lines : list jsstring) : list jsstring := merge_sort lex_le lines.

(** The data that is hashed: with pre-sort, the non-blank lines sorted and
    joined; without, the input as it is. *)
Definition processData (preSortEnabled : bool) (inputData : jsstring) : jsstring :=
  if preSortEnabled then
    let lines := filter nonblank (split_newline inputData) in
    join_newline (sort lines)
  else inputData.

Section WithPlatform.
Variable encode : jsstring -> list Z.
Variable digest_sha256 : list Z -> list Z.
Variable keccak256 : jsstring -> option (list Z).

(** [handleSubmit]: the entity hash and the salt digest handed to the
    driver. *)
Definition handleSubmit (inputData salt : jsstring) (preSortEnabled : bool)
    : jsstring * jsstring :=
  let processedData := processData preSortEnabled inputData in
  let entityHash := Hashing.sha256Hash encode digest_sha256 (processedData ++ salt) in
  let saltBytes32 := Keccak.saltToBytes32 keccak256 (Some salt) in
  (entityHash, saltBytes32).

(** [verifyManually]: [true] is the result ['success']. *)
Definition verifyManually (storeEntityHash storeSalt : jsstring)
    (manualInputData manualSalt : jsstring) (manualPreSort : bool) : bool :=
  let processedData := processData manualPreSort manualInputData in
  let computedHash := Hashing.sha256Hash encode digest_sha256 (processedData ++ manualSalt) in
  let entityHashValid := bool_decide (computedHash = storeEntityHash) in
  let saltValid := bool_decide (manualSalt = storeSalt) in
  entityHashValid && saltValid.

End WithPlatform.

Section WithGenerator.
Context {G : RandomSource}.

(** The computed [shuffledEntries] of the winner component: nothing while
    the random value is null or 0 or the input is empty. *)
Definition shuffledEntries (randomValue : option Z) (inputData : jsstring)
    : list jsstring :=
  match randomValue with
  | None => []
  | Some v =>
      if (v =? 0) || bool_decide (inputData = []) then []
      else
        let lines := filter nonblank (split_newline inputData) in
        Shuffle.shuffled_value lines v
  end.

(** The watcher on [shuffledEntries]: winners are picked when there are
    entries and the winner count is positive. *)
Definition onShuffled (c : WinnerSelection.component) (newShuffled : list jsstring)
    : WinnerSelection.component :=
  let c1 :=
    {| WinnerSelection.shuffledEntries := newShuffled;
       WinnerSelection.numberOfWinners := WinnerSelection.numberOfWinners c;
       WinnerSelection.winners := WinnerSelection.winners c;
       WinnerSelection.winnersSelected := WinnerSelection.winnersSelected c;
       WinnerSelection.winnersRevealed := WinnerSelection.winnersRevealed c |} in
  if (0 <? length newShuffled)%nat && (0 <? WinnerSelection.numberOfWinners c)
  then WinnerSelection.autoPickWinners c1
  else c1.

End WithGenerator.
End Orchestration.

(* ===================================================================== *)
(** ** Sample texts                                                       *)
(* ===================================================================== *)

Module Texts.

(** Three names on four lines, one of them empty, and the same names in
    another order. *)
Definition entered : jsstring :=
  JS.js "Bob" ++ 10%N :: JS.js "Alice" ++ 10%N :: 10%N :: JS.js "Charlie".

Definition reordered : jsstring :=
  JS.js "Charlie" ++ 10%N :: JS.js "Bob" ++ 10%N :: JS.js "Alice".

End Texts.

(* ===================================================================== *)
(** * Properties                                                          *)
(* ===================================================================== *)

(** ** Numbers and strings *)

Module JSFacts.
Import JS.

Lemma to_int32_range z : - 2 ^ 31 <= to_int32 z < 2 ^ 31.
Proof.
  unfold to_int32.
  pose proof (Z.mod_pos_bound z (2 ^ 32) eq_refl) as Hm.
  destruct (Z.ltb_spec (z mod 2 ^ 32) (2 ^ 31)); lia.
Qed.

Lemma to_int32_small z : - 2 ^ 31 <= z < 2 ^ 31 -> to_int32 z = z.
Proof.
  intros Hz. unfold to_int32.
  destruct (Z.ltb_spec (z mod 2 ^ 32) (2 ^ 31)) as [Hlt | Hge].
  - destruct (Z.neg_nonneg_cases z) as [Hneg | Hpos].
    + assert (z mod 2 ^ 32 = z + 2 ^ 32); [| lia].
      symmetry. apply (Z.mod_unique _ _ (-1)); lia.
    + apply Z.mod_small. lia.
  - destruct (Z.neg_nonneg_cases z) as [Hneg | Hpos].
    + assert (z mod 2 ^ 32 = z + 2 ^ 32); [| lia].
      symmetry. apply (Z.mod_unique _ _ (-1)); lia.
    + rewrite Z.mod_small in Hge; lia.
Qed.

(** Rounding keeps the sign, and moves a non-negative integer up by at
    most one unit in the last place. *)
Lemma round_double_nonneg z : 0 <= z -> 0 <= round_double z.
Proof.
  intros Hz. unfold round_double.
  destruct (Z.ltb_spec (Z.abs z) (2 ^ 53)); [lia |].
  rewrite Z.abs_eq by lia.
  set (e := Z.log2 z - 52).
  assert (He : 0 <= e).
  { assert (53 <= Z.log2 z); [| lia]. apply Z.log2_le_pow2; lia. }
  assert (0 < 2 ^ e) by (apply Z.pow_pos_nonneg; lia).
  assert (0 <= z / 2 ^ e) by (apply Z.div_pos; lia).
  assert (Hsgn : 0 <= Z.sgn z) by (apply Z.sgn_nonneg; lia).
  apply Z.mul_nonneg_nonneg; [exact Hsgn |].
  apply Z.mul_nonneg_nonneg; [| lia].
  repeat match goal with |- context [if ?b then _ else _] => destruct b end; lia.
Qed.

Lemma round_double_upper z :
  0 <= z -> round_double z <= z + 2 ^ (Z.log2 z - 52).
Proof.
  intros Hz. unfold round_double.
  destruct (Z.ltb_spec (Z.abs z) (2 ^ 53)) as [Hlt | Hge].
  - assert (0 <= 2 ^ (Z.log2 z - 52)) by (apply Z.pow_nonneg; lia). lia.
  - rewrite Z.abs_eq in * by lia.
    set (e := Z.log2 z - 52).
    assert (He : 0 <= e).
    { assert (53 <= Z.log2 z); [| lia]. apply Z.log2_le_pow2; lia. }
    assert (Hp : 0 < 2 ^ e) by (apply Z.pow_pos_nonneg; lia).
    assert (Hs : Z.sgn z = 1) by (apply Z.sgn_pos; lia).
    rewrite Hs, Z.mul_1_l.
    pose proof (Z.div_mod z (2 ^ e) ltac:(lia)) as Hdm.
    pose proof (Z.mod_pos_bound z (2 ^ e) Hp) as Hmod.
    repeat match goal with |- context [if ?b then _ else _] => destruct b end; nia.
Qed.

Lemma hex_digit_is_hex d : 0 <= d < 16 -> is_hex_digit (hex_digit d) = true.
Proof.
  intros Hd.
  assert (Hcases : d = 0 \/ d = 1 \/ d = 2 \/ d = 3 \/ d = 4 \/ d = 5 \/ d = 6 \/ d = 7
                   \/ d = 8 \/ d = 9 \/ d = 10 \/ d = 11 \/ d = 12 \/ d = 13 \/ d = 14
                   \/ d = 15) by lia.
  repeat (destruct Hcases as [-> | Hcases]; [reflexivity |]).
  subst d. reflexivity.
Qed.

Lemma hex_digits_are_hex fuel z acc :
  0 <= z ->
  Forall (fun c => is_hex_digit c = true) acc ->
  Forall (fun c => is_hex_digit c = true) (hex_digits fuel z acc).
Proof.
  revert z acc. induction fuel as [| fuel IH]; intros z acc Hz Hacc; simpl.
  - exact Hacc.
  - destruct (Z.ltb_spec z 16).
    + constructor; [apply hex_digit_is_hex; lia | exact Hacc].
    + apply IH.
      * apply Z.div_pos; lia.
      * constructor; [| exact Hacc].
        apply hex_digit_is_hex. apply Z.mod_pos_bound. lia.
Qed.

Lemma toString16_is_hex z :
  0 <= z -> Forall (fun c => is_hex_digit c = true) (toString16 z).
Proof.
  intros Hz. unfold toString16.
  destruct (Z.ltb_spec z 0); [lia |].
  apply hex_digits_are_hex; [lia | constructor].
Qed.

Lemma padStart_length n c s : length (padStart n c s) = Nat.max n (length s).
Proof. unfold padStart. rewrite length_app, length_replicate. lia. Qed.

(** *** [trim] *)

Lemma trimStart_blank s :
  Forall (fun c => is_whitespace c = true) s -> trimStart s = [].
Proof. induction 1 as [| c s Hc _ IH]; simpl; [reflexivity |]. by rewrite Hc. Qed.

Lemma trimStart_head s c t : trimStart s = c :: t -> is_whitespace c = false.
Proof.
  induction s as [| x s IH]; simpl; [discriminate |].
  destruct (is_whitespace x) eqn:Hx; [exact IH |].
  intros [= -> _]. exact Hx.
Qed.

Lemma trimStart_fixed s :
  match s with [] => True | c :: _ => is_whitespace c = false end ->
  trimStart s = s.
Proof. destruct s as [| c s]; simpl; [reflexivity |]. by intros ->. Qed.

Lemma trimStart_idemp s : trimStart (trimStart s) = trimStart s.
Proof.
  apply trimStart_fixed. destruct (trimStart s) as [| c t] eqn:Hs; [exact I |].
  eapply trimStart_head, Hs.
Qed.

(** What [trimStart] removes is a prefix. *)
Lemma trimStart_suffix s : exists ws, s = ws ++ trimStart s.
Proof.
  induction s as [| c s [ws IH]]; simpl.
  - by exists [].
  - destruct (is_whitespace c).
    + exists (c :: ws). simpl. by rewrite <- IH.
    + by exists [].
Qed.

Lemma trimEnd_prefix s : exists ws, s = trimEnd s ++ ws.
Proof.
  unfold trimEnd. destruct (trimStart_suffix (rev s)) as [ws Hws].
  exists (rev ws). rewrite <- rev_app_distr, <- Hws. by rewrite rev_involutive.
Qed.

Lemma trim_blank s :
  Forall (fun c => is_whitespace c = true) s -> trim s = [].
Proof. intros Hs. unfold trim. by rewrite (trimStart_blank s Hs). Qed.

Lemma trim_idemp s : trim (trim s) = trim s.
Proof.
  unfold trim at 1.
  assert (Hstart : trimStart (trim s) = trim s).
  { apply trimStart_fixed. unfold trim.
    destruct (trimEnd (trimStart s)) as [| c t] eqn:Hend; [exact I |].
    destruct (trimEnd_prefix (trimStart s)) as [ws Hws].
    rewrite Hend in Hws. simpl in Hws.
    eapply trimStart_head, Hws. }
  rewrite Hstart. unfold trim, trimEnd.
  by rewrite rev_involutive, trimStart_idemp.
Qed.

End JSFacts.

(** ** Salt digests *)

Module KeccakFacts.
Import JS JSFacts Keccak.

(** The fallback digest of the empty string: the first pass leaves 0, the
    second leaves the offset basis. *)
Example simpleFallbackHash_empty :
  simpleFallbackHash [] =
  js "0x00000000000000000000000000000000000000000000000000000000811c9dc5".
Proof. reflexivity. Qed.

(** In the second pass the product leaves the 53 bits of a double: for
    the character [b] (98), [(0x811c9dc5 ^ 98) * 0x01000193] is
    -35716716523934235 as an integer and -35716716523934236 as a number,
    and the sum with the first hash is a tie, rounded to even. *)
Example hash2_step_rounds :
  Z.lxor (to_int32 0x811c9dc5) 98 * 0x01000193 = -35716716523934235
  /\ hash2_step 0x811c9dc5 98 = -35716716523934236
  /\ JS.add (Z.abs 98) (Z.abs (-35716716523934236)) = 35716716523934336
  /\ simpleFallbackHash (js "b") =
     js "0x000000000000000000000000000000000000000000000000007ee42a18f3d280".
Proof. repeat split; reflexivity. Qed.

Lemma simpleFallbackHash_shape input :
  length (simpleFallbackHash input) = 66%nat
  /\ take 2 (simpleFallbackHash input) = js "0x"
  /\ Forall (fun c => is_hex_digit c = true) (drop 2 (simpleFallbackHash input)).
Proof.
  unfold simpleFallbackHash.
  set (v := JS.add _ _).
  assert (Hv : 0 <= v).
  { unfold v, JS.add. apply round_double_nonneg. lia. }
  change (js "0x") with [48%N; 120%N].
  split; [| split].
  - rewrite length_app, length_take, padStart_length. cbn [length]. lia.
  - reflexivity.
  - change (drop 2 ([48%N; 120%N] ++ ?l)) with l. simpl drop.
    apply Forall_take. unfold padStart. apply Forall_app. split.
    + apply Forall_replicate. reflexivity.
    + by apply toString16_is_hex.
Qed.

Lemma saltToBytes32_trim keccak256 s :
  saltToBytes32 keccak256 (Some s) = saltToBytes32 keccak256 (Some (trim s)).
Proof.
  unfold saltToBytes32, falsy. rewrite trim_idemp.
  destruct (decide (s = [])) as [-> | Hs]; [reflexivity |].
  rewrite (bool_decide_eq_false_2 _ Hs). simpl.
  destruct (decide (trim s = [])) as [Ht | Ht].
  - rewrite Ht. reflexivity.
  - rewrite (bool_decide_eq_false_2 _ Ht). reflexivity.
Qed.

Lemma saltToBytes32_strict_trim keccak256 s :
  saltToBytes32_strict keccak256 (Some s) = saltToBytes32_strict keccak256 (Some (trim s)).
Proof.
  unfold saltToBytes32_strict, falsy. rewrite trim_idemp.
  destruct (decide (s = [])) as [-> | Hs]; [reflexivity |].
  rewrite (bool_decide_eq_false_2 _ Hs). simpl.
  destruct (decide (trim s = [])) as [Ht | Ht].
  - rewrite Ht. reflexivity.
  - rewrite (bool_decide_eq_false_2 _ Ht). reflexivity.
Qed.

Lemma saltToBytes32_blank keccak256 s :
  Forall (fun c => is_whitespace c = true) s ->
  saltToBytes32 keccak256 (Some s) = ZERO_BYTES32
  /\ saltToBytes32_strict keccak256 (Some s) = Some ZERO_BYTES32.
Proof.
  intros Hs. unfold saltToBytes32, saltToBytes32_strict.
  rewrite (trim_blank s Hs). rewrite (bool_decide_eq_true_2 ([] = [])) by reflexivity.
  rewrite orb_true_r. by split.
Qed.

(** C6. [saltToBytes32] sends the empty string, null/undefined and every
    string made of white space only to the all-zero bytes32 sentinel,
    whatever the hash primitive is (it is never asked for the hash of the
    empty string), and a salt has the digest of its trimmed form: the
    digest of [" x "] is the digest of ["x"].  Both versions of
    keccak.ts, with and without the fallback, agree on this. *)
Theorem saltToBytes32_sentinel_and_trim (keccak256 : jsstring -> option (list Z)) :
  ZERO_BYTES32 = js "0x" ++ replicate 64 48%N
  /\ saltToBytes32 keccak256 (Some (js "")) = ZERO_BYTES32
  /\ saltToBytes32 keccak256 None = ZERO_BYTES32
  /\ saltToBytes32 keccak256 (Some (js "   ")) = ZERO_BYTES32
  /\ (forall s, Forall (fun c => is_whitespace c = true) s ->
        saltToBytes32 keccak256 (Some s) = ZERO_BYTES32
        /\ saltToBytes32_strict keccak256 (Some s) = Some ZERO_BYTES32)
  /\ saltToBytes32_strict keccak256 None = Some ZERO_BYTES32
  /\ saltToBytes32 keccak256 (Some (js " x ")) = saltToBytes32 keccak256 (Some (js "x"))
  /\ saltToBytes32_strict keccak256 (Some (js " x "))
     = saltToBytes32_strict keccak256 (Some (js "x"))
  /\ (forall s, saltToBytes32 keccak256 (Some s) = saltToBytes32 keccak256 (Some (trim s))
        /\ saltToBytes32_strict keccak256 (Some s)
           = saltToBytes32_strict keccak256 (Some (trim s)))
  /\ (forall s, trim s <> [] ->
        saltToBytes32 keccak256 (Some s) = stringToBytes32 keccak256 (trim s)).
Proof.
  repeat split; try reflexivity.
  - by apply saltToBytes32_blank.
  - by apply saltToBytes32_blank.
  - apply saltToBytes32_trim.
  - apply saltToBytes32_strict_trim.
  - intros s Ht. unfold saltToBytes32, falsy.
    assert (Hs : s <> []) by (intros ->; by apply Ht).
    by rewrite (bool_decide_eq_false_2 _ Hs), (bool_decide_eq_false_2 _ Ht).
Qed.

(** C9. When the keccak primitive throws, [stringToBytes32] returns the
    value of [simpleFallbackHash]: a function of the input alone, of the
    form [0x] followed by exactly 64 hexadecimal digits. *)
Theorem stringToBytes32_fallback (keccak256 : jsstring -> option (list Z))
    (input : jsstring) :
  keccak256 input = None ->
  stringToBytes32 keccak256 input = simpleFallbackHash input
  /\ length (stringToBytes32 keccak256 input) = 66%nat
  /\ take 2 (stringToBytes32 keccak256 input) = js "0x"
  /\ Forall (fun c => is_hex_digit c = true) (drop 2 (stringToBytes32 keccak256 input)).
Proof.
  intros Hthrow. unfold stringToBytes32. rewrite Hthrow.
  split; [reflexivity |]. apply simpleFallbackHash_shape.
Qed.

Lemma stringToBytes32_fallback_witness :
  Keccak.stringToBytes32 (fun _ => None) (js "salt")
  = js "0x000000000000000000000000000000000000000000000000001de8061c2d41ee"
  /\ length (Keccak.stringToBytes32 (fun _ => None) (js "salt")) = 66%nat.
Proof.
  destruct (stringToBytes32_fallback (fun _ => None) (js "salt") eq_refl)
    as (H1 & H2 & _).
  split; [| exact H2]. rewrite H1. vm_compute. reflexivity.
Defined.

End KeccakFacts.

(** ** The shuffle *)

Module ShuffleFacts.
Import Samples JS JSFacts Shuffle.

Lemma insert_Permutation (l : list jsstring) i x y :
  l !! i = Some x -> <[i := y]> l ≡ₚ y :: delete i l.
Proof.
  intros Hi. apply lookup_lt_Some in Hi.
  rewrite insert_take_drop, delete_take_drop by exact Hi.
  symmetry. apply Permutation_middle.
Qed.

Lemma swap_list_Permutation a i j : swap_list a i j ≡ₚ a.
Proof.
  unfold swap_list.
  destruct (a !! j) as [aj |] eqn:Hj; [| reflexivity].
  destruct (a !! i) as [ai |] eqn:Hi; [| reflexivity].
  destruct (decide (i = j)) as [-> | Hne].
  - rewrite list_insert_insert_eq. rewrite list_insert_id; [reflexivity |].
    congruence.
  - assert (Hj' : <[i := aj]> a !! j = Some aj)
      by (rewrite list_lookup_insert_ne by exact Hne; exact Hj).
    pose proof (delete_Permutation _ j aj Hj') as Hb.
    pose proof (insert_Permutation a i ai aj Hi) as Hc.
    assert (Hrest : delete j (<[i := aj]> a) ≡ₚ delete i a).
    { apply (Permutation_cons_inv (a := aj)).
      transitivity (<[i := aj]> a); [by symmetry | exact Hc]. }
    transitivity (ai :: delete j (<[i := aj]> a)).
    { apply (insert_Permutation _ j aj ai Hj'). }
    transitivity (ai :: delete i a).
    { by apply Permutation_cons. }
    symmetry. by apply delete_Permutation.
Qed.

Lemma swap_list_length a i j : length (swap_list a i j) = length a.
Proof. apply Permutation_length, swap_list_Permutation. Qed.

(** Inside the array the swap does what the assignment does. *)
Lemma swap_list_in_range a i j :
  (j <= i < length a)%nat ->
  exists ai aj, a !! i = Some ai /\ a !! j = Some aj
                /\ swap_list a i j = <[j := ai]> (<[i := aj]> a).
Proof.
  intros [Hji Hi].
  destruct (lookup_lt_is_Some_2 a i Hi) as [ai Hai].
  destruct (lookup_lt_is_Some_2 a j ltac:(lia)) as [aj Haj].
  exists ai, aj. unfold swap_list. by rewrite Hai, Haj.
Qed.

(** The index drawn at position [i] lies in [[0, i]]. *)
Lemma random_index_le x i : 0 <= x < 2 ^ 32 -> (random_index x i <= i)%nat.
Proof.
  intros Hx. unfold random_index.
  set (n := x * (Z.of_nat i + 1)).
  assert (Hn : 0 <= n) by (unfold n; nia).
  assert (Hup : n <= 2 ^ 32 * (Z.of_nat i + 1) - (Z.of_nat i + 1)) by (unfold n; nia).
  pose proof (round_double_nonneg n Hn) as Hlo.
  pose proof (round_double_upper n Hn) as Hhi.
  assert (Hulp : 2 ^ (Z.log2 n - 52) < Z.of_nat i + 1).
  { destruct (Z.lt_ge_cases (Z.log2 n - 52) 0) as [Hneg | Hpos].
    - rewrite Z.pow_neg_r by exact Hneg. lia.
    - assert (H0 : 0 < n).
      { destruct (Z.eq_dec n 0) as [Hz | Hz]; [| lia].
        rewrite Hz in Hpos. simpl in Hpos. lia. }
      pose proof (Z.log2_spec n H0) as [Hlog _].
      replace (Z.log2 n) with ((Z.log2 n - 52) + 52) in Hlog by lia.
      rewrite Z.pow_add_r in Hlog by lia.
      assert (0 <= 2 ^ (Z.log2 n - 52)) by (apply Z.pow_nonneg; lia).
      change (2 ^ 52) with (2 ^ 32 * 2 ^ 20) in Hlog. nia. }
  assert (Hlt : round_double n / 2 ^ 32 < Z.of_nat i + 1).
  { apply Z.div_lt_upper_bound; lia. }
  assert (0 <= round_double n / 2 ^ 32) by (apply Z.div_pos; lia).
  lia.
Qed.

Lemma swap_elements_spec (h : heap) l a i j :
  h !! l = Some a -> swap_elements h l i j = <[l := swap_list a i j]> h.
Proof.
  intros Hl. unfold swap_elements, swap_list. rewrite Hl.
  destruct (a !! j); [| by rewrite insert_id].
  destruct (a !! i); [reflexivity | by rewrite insert_id].
Qed.

Section WithGenerator.
Context {G : RandomSource}.

Lemma fisher_yates_list_Permutation i mt a : fisher_yates_list i mt a ≡ₚ a.
Proof.
  revert mt a. induction i as [| i IH]; intros mt a; simpl; [reflexivity |].
  destruct (rs_random_int mt) as [x mt'].
  rewrite IH. apply swap_list_Permutation.
Qed.

(** Every swap made by the loop started below the length of the array has
    both indices inside the array. *)
Lemma fisher_yates_indices i mt :
  (random_index (fst (rs_random_int mt)) i <= i)%nat.
Proof. apply random_index_le, rs_random_int_range. Qed.

(** One turn of the loop at an index inside the array exchanges the
    elements at [i] and at the drawn [j], keeps every other element and
    the length, and goes on from [i - 1]. *)
Lemma fisher_yates_list_turn i mt a :
  (S i < length a)%nat ->
  exists a',
    fisher_yates_list (S i) mt a
    = fisher_yates_list i (snd (rs_random_int mt)) a'
    /\ length a' = length a
    /\ a' !! S i = a !! random_index (fst (rs_random_int mt)) (S i)
    /\ a' !! random_index (fst (rs_random_int mt)) (S i) = a !! S i
    /\ (forall k, k <> S i -> k <> random_index (fst (rs_random_int mt)) (S i) ->
          a' !! k = a !! k).
Proof.
  intros Hi. pose proof (fisher_yates_indices (S i) mt) as Hj.
  simpl. destruct (rs_random_int mt) as [x mt']. simpl in *.
  set (j := random_index x (S i)) in *.
  exists (swap_list a (S i) j).
  destruct (swap_list_in_range a (S i) j ltac:(lia)) as (ai & aj & Hai & Haj & Hsw).
  split; [reflexivity |].
  split; [apply swap_list_length |].
  rewrite Hsw, Hai, Haj.
  assert (Hlen : (j < length (<[S i := aj]> a))%nat) by (rewrite length_insert; lia).
  split; [| split].
  - destruct (decide (j = S i)) as [Heq | Hne].
    + rewrite Heq in *. rewrite list_lookup_insert_eq by exact Hlen. congruence.
    + rewrite list_lookup_insert_ne by exact Hne.
      by rewrite list_lookup_insert_eq.
  - by rewrite list_lookup_insert_eq.
  - intros k Hk1 Hk2. by rewrite !list_lookup_insert_ne.
Qed.

(** The loop writes to the array at [shuffled] and nowhere else. *)
Lemma fisher_yates_heap i mt (h : heap) shuffled a :
  h !! shuffled = Some a ->
  fisher_yates i mt h shuffled = <[shuffled := fisher_yates_list i mt a]> h.
Proof.
  revert mt h a. induction i as [| i IH]; intros mt h a Hl; simpl.
  - by rewrite insert_id.
  - destruct (rs_random_int mt) as [x mt'].
    rewrite (swap_elements_spec h shuffled a _ _ Hl).
    rewrite (IH mt' _ (swap_list a (S i) (random_index x (S i))))
      by apply lookup_insert_eq.
    apply insert_insert_eq.
Qed.

Lemma shuffleArray_spec (h : heap) array entries seed :
  h !! array = Some entries ->
  shuffleArray h array seed
  = Some (fresh (dom h), <[fresh (dom h) := shuffled_value entries seed]> h).
Proof.
  intros Ha. unfold shuffleArray, shuffled_value. rewrite Ha.
  rewrite (fisher_yates_heap _ _ _ _ entries) by apply lookup_insert_eq.
  by rewrite insert_insert_eq.
Qed.

Lemma fresh_not_allocated (h : heap) l a : h !! l = Some a -> fresh (dom h) <> l.
Proof.
  intros Hl Heq. apply (is_fresh (dom h)). rewrite Heq.
  apply elem_of_dom. by exists a.
Qed.

(** C3. For every array of strings and every integer seed,
    [shuffleArray] returns a new array that is a permutation of the
    entries (same multiset) and has the same length. *)
Theorem shuffleArray_permutation (h : heap) (array : loc)
    (entries : list jsstring) (seed : Z) :
  h !! array = Some entries ->
  exists shuffled h' out,
    shuffleArray h array seed = Some (shuffled, h')
    /\ h' !! shuffled = Some out
    /\ out ≡ₚ entries
    /\ length out = length entries.
Proof.
  intros Ha.
  exists (fresh (dom h)), (<[fresh (dom h) := shuffled_value entries seed]> h),
    (shuffled_value entries seed).
  split; [by apply shuffleArray_spec |].
  split; [apply lookup_insert_eq |].
  assert (Hp : shuffled_value entries seed ≡ₚ entries)
    by apply fisher_yates_list_Permutation.
  split; [exact Hp | by apply Permutation_length].
Qed.

(** C10. [shuffleArray] does not change its argument: after the call the
    array passed in holds the same elements in the same order, the
    result is a different array, and no other array of the store has
    changed. *)
Theorem shuffleArray_keeps_input (h : heap) (array : loc)
    (entries : list jsstring) (seed : Z) :
  h !! array = Some entries ->
  exists shuffled h',
    shuffleArray h array seed = Some (shuffled, h')
    /\ shuffled <> array
    /\ h' !! array = Some entries
    /\ (forall l, l <> shuffled -> h' !! l = h !! l).
Proof.
  intros Ha.
  exists (fresh (dom h)), (<[fresh (dom h) := shuffled_value entries seed]> h).
  pose proof (fresh_not_allocated h array entries Ha) as Hfresh.
  split; [by apply shuffleArray_spec |].
  split; [exact Hfresh |].
  split.
  - by rewrite lookup_insert_ne.
  - intros l Hl. by rewrite lookup_insert_ne.
Qed.

End WithGenerator.

(** Four entries shuffled with seed 42 under MT19937: the draws are
    1608637542, 3421126067 and 4083286876, the indices 1, 2 and 1. *)
Example shuffle_seed_42 :
  shuffled_value four_entries 42 = [js "Alice"; js "David"; js "Charlie"; js "Bob"].
Proof. vm_compute. reflexivity. Qed.

Lemma shuffleArray_permutation_witness :
  exists shuffled h' out,
    shuffleArray (G := mt19937) {[ 1%positive := four_entries ]} 1%positive 42
    = Some (shuffled, h')
    /\ h' !! shuffled = Some out
    /\ out ≡ₚ four_entries
    /\ length out = length four_entries.
Proof.
  apply (shuffleArray_permutation (G := mt19937)
           {[ 1%positive := four_entries ]} 1%positive four_entries 42).
  vm_compute. reflexivity.
Defined.

Lemma shuffleArray_keeps_input_witness :
  exists shuffled h',
    shuffleArray (G := mt19937) {[ 1%positive := four_entries ]} 1%positive 42
    = Some (shuffled, h')
    /\ shuffled <> 1%positive
    /\ h' !! 1%positive = Some four_entries
    /\ (forall l, l <> shuffled ->
          h' !! l = ({[ 1%positive := four_entries ]} : heap) !! l).
Proof.
  apply (shuffleArray_keeps_input (G := mt19937)
           {[ 1%positive := four_entries ]} 1%positive four_entries 42).
  vm_compute. reflexivity.
Defined.

End ShuffleFacts.

(** ** Determinism of the two core functions *)

Module DeterminismFacts.
Import Samples JS Shuffle ShuffleFacts Hashing.

(** C8. The entity hash and the shuffle are functions of their inputs:
    equal data and salt give equal entity hashes, and two calls of
    [shuffleArray] on arrays with the same entries and the same seed
    return arrays with the same contents, wherever the arrays live and
    whatever else the store holds. *)
Theorem core_functions_deterministic {G : RandomSource}
    (encode : jsstring -> list Z) (digest_sha256 : list Z -> list Z)
    (data salt data' salt' : jsstring)
    (h1 h2 : heap) (a1 a2 : loc) (entries : list jsstring) (seed : Z) :
  data = data' -> salt = salt' ->
  h1 !! a1 = Some entries -> h2 !! a2 = Some entries ->
  computeEntityHash encode digest_sha256 data salt
  = computeEntityHash encode digest_sha256 data' salt'
  /\ exists l1 h1' l2 h2' out,
       shuffleArray h1 a1 seed = Some (l1, h1')
       /\ shuffleArray h2 a2 seed = Some (l2, h2')
       /\ h1' !! l1 = Some out
       /\ h2' !! l2 = Some out.
Proof.
  intros -> -> H1 H2. split; [reflexivity |].
  exists (fresh (dom h1)), (<[fresh (dom h1) := shuffled_value entries seed]> h1),
    (fresh (dom h2)), (<[fresh (dom h2) := shuffled_value entries seed]> h2),
    (shuffled_value entries seed).
  split; [by apply shuffleArray_spec |].
  split; [by apply shuffleArray_spec |].
  split; apply lookup_insert_eq.
Qed.

Lemma core_functions_deterministic_witness :
  computeEntityHash (map Z.of_N) (fun bs => bs) (js "Alice") (js "s1")
  = computeEntityHash (map Z.of_N) (fun bs => bs) (js "Alice") (js "s1")
  /\ exists l1 h1' l2 h2' out,
       shuffleArray (G := mt19937) {[ 1%positive := four_entries ]} 1%positive 42
       = Some (l1, h1')
       /\ shuffleArray (G := mt19937)
            {[ 3%positive := [js "x"]; 7%positive := four_entries ]} 7%positive 42
          = Some (l2, h2')
       /\ h1' !! l1 = Some out
       /\ h2' !! l2 = Some out.
Proof.
  apply (core_functions_deterministic (G := mt19937) (map Z.of_N) (fun bs => bs)
           (js "Alice") (js "s1") (js "Alice") (js "s1")
           {[ 1%positive := four_entries ]}
           {[ 3%positive := [js "x"]; 7%positive := four_entries ]}
           1%positive 7%positive four_entries 42);
    vm_compute; reflexivity.
Defined.

End DeterminismFacts.

(** ** Winner selection *)

Module WinnerSelectionFacts.
Import Samples JS WinnerSelection.

Lemma slice_from_start {A} (a : list A) (n : Z) :
  0 <= n -> slice a 0 n = take (Z.to_nat n) a.
Proof.
  intros Hn. unfold slice, relative_index.
  destruct (Z.ltb_spec 0 0); [lia |].
  destruct (Z.ltb_spec n 0); [lia |].
  rewrite (Z.min_l 0) by lia. change (Z.to_nat 0) with 0%nat.
  rewrite drop_0, Z.sub_0_r.
  destruct (Z.le_gt_cases n (Z.of_nat (length a))) as [Hle | Hgt].
  - by replace (Z.to_nat (Z.max (Z.min n (Z.of_nat (length a))) 0))
      with (Z.to_nat n) by lia.
  - replace (Z.to_nat (Z.max (Z.min n (Z.of_nat (length a))) 0))
      with (length a) by lia.
    rewrite !take_ge by lia. reflexivity.
Qed.

(** C7. For a winner count [N >= 0], [autoPickWinners] stores as
    winners exactly the first [N] entries of the shuffled list, in order;
    when [N] exceeds the length of the list the winners are the whole
    list, and no error is raised. *)
Theorem autoPickWinners_first_N (c : component) :
  0 <= numberOfWinners c ->
  winners (autoPickWinners c) = take (Z.to_nat (numberOfWinners c)) (shuffledEntries c)
  /\ (forall i, (i < Z.to_nat (numberOfWinners c))%nat ->
        winners (autoPickWinners c) !! i = shuffledEntries c !! i)
  /\ length (winners (autoPickWinners c))
     = Nat.min (Z.to_nat (numberOfWinners c)) (length (shuffledEntries c))
  /\ (Z.of_nat (length (shuffledEntries c)) <= numberOfWinners c ->
        winners (autoPickWinners c) = shuffledEntries c).
Proof.
  intros Hn. cbn [autoPickWinners winners].
  rewrite slice_from_start by exact Hn.
  split; [reflexivity |].
  split; [intros i Hi; by apply lookup_take_lt |].
  split; [apply length_take |].
  intros Hlen. apply take_ge. lia.
Qed.

Example pick_two_of_four :
  winners (autoPickWinners
             {| shuffledEntries := [js "David"; js "Alice"; js "Charlie"; js "Bob"];
                numberOfWinners := 2; winners := [];
                winnersSelected := false; winnersRevealed := false |})
  = [js "David"; js "Alice"].
Proof. reflexivity. Qed.

Lemma autoPickWinners_first_N_witness :
  winners (autoPickWinners three_entries) = [js "Bob"; js "Alice"; js "Charlie"].
Proof.
  pose proof (autoPickWinners_first_N three_entries) as H.
  destruct H as (_ & _ & _ & Hall).
  - vm_compute. discriminate.
  - apply Hall. vm_compute. discriminate.
Defined.

End WinnerSelectionFacts.

(** ** The commitment ledger *)

Module RandomProofFacts.
Import Samples RandomProof.

Lemma requestRandomness_ok st sender now h salt coordinator rid st1 :
  requestRandomness st sender now h salt coordinator = Ok rid st1 ->
  isEntityProcessed st h = false
  /\ coordinator = Some rid
  /\ isEntityProcessed st1 h = true
  /\ s_requests st1 !! rid
     = Some {| entityHash := h; salt := salt; randomness := 0; timestamp := now;
               fulfilled := false; requester := sender |}.
Proof.
  unfold requestRandomness.
  destruct (isEntityProcessed st h) eqn:Hp; [discriminate |].
  destruct coordinator as [rid' |]; [| discriminate].
  intros [= <- <-]. unfold isEntityProcessed. cbn.
  rewrite !lookup_insert_eq. by repeat split.
Qed.

(** A hash once marked stays marked: no call clears
    [processedEntityHashes]. *)
Lemma processed_exec st c h :
  isEntityProcessed st h = true -> isEntityProcessed (exec st c) h = true.
Proof.
  intros Hp. destruct c as [sender now h' salt coordinator | now rid ws | sender which v];
    cbn [exec].
  - unfold requestRandomness.
    destruct (isEntityProcessed st h'); [exact Hp |].
    destruct coordinator as [rid |]; [| exact Hp].
    unfold isEntityProcessed in *. cbn.
    destruct (decide (h' = h)) as [-> | Hne].
    + by rewrite lookup_insert_eq.
    + by rewrite lookup_insert_ne.
  - unfold fulfillRandomWords.
    destruct (timestamp (request_at st rid) =? 0); [exact Hp |].
    destruct (ws !! 0%nat); exact Hp.
  - unfold update. destruct (negb (sender =? owner st)); exact Hp.
Qed.

Lemma processed_run calls st h :
  isEntityProcessed st h = true -> isEntityProcessed (run st calls) h = true.
Proof.
  revert st. induction calls as [| c calls IH]; intros st Hp; [exact Hp |].
  apply IH, processed_exec, Hp.
Qed.

(** C1. After a successful [requestRandomness] for an entity hash, and
    after any further calls to the contract, every submission of the same
    entity hash reverts with [EntityAlreadyProcessed], whatever the salt,
    the sender, the time and the coordinator's answer; the rejected
    transaction leaves the storage as it was, so no second record
    appears. *)
Theorem requestRandomness_one_shot (st : state) (sender now h salt : Z)
    (coordinator : option Z) (rid : Z) (st1 : state) (calls : list call)
    (sender2 now2 salt2 : Z) (coordinator2 : option Z) :
  requestRandomness st sender now h salt coordinator = Ok rid st1 ->
  requestRandomness (run st1 calls) sender2 now2 h salt2 coordinator2
  = Revert (EntityAlreadyProcessed h)
  /\ exec (run st1 calls) (CallRequest sender2 now2 h salt2 coordinator2)
     = run st1 calls.
Proof.
  intros Hok. apply requestRandomness_ok in Hok as (_ & _ & Hp & _).
  pose proof (processed_run calls st1 h Hp) as Hp'.
  assert (Hrev : requestRandomness (run st1 calls) sender2 now2 h salt2 coordinator2
                 = Revert (EntityAlreadyProcessed h)).
  { unfold requestRandomness. by rewrite Hp'. }
  split; [exact Hrev |]. cbn [exec]. by rewrite Hrev.
Qed.

(** Scenario: the first submission of 0xabc gets id 1, it is fulfilled,
    another hash is submitted, and 0xabc is then refused to a different
    sender with a different salt. *)
Definition deployed : state := constructor 100 1 77.

Lemma requestRandomness_one_shot_witness :
  requestRandomness
    (run (state_after deployed (requestRandomness deployed 5 1000 0xabc 9 (Some 1)))
         [CallFulfill 1010 1 [42]; CallRequest 6 1020 0xdef 9 (Some 2)])
    6 1030 0xabc 8 (Some 3)
  = Revert (EntityAlreadyProcessed 0xabc)
  /\ exec
       (run (state_after deployed (requestRandomness deployed 5 1000 0xabc 9 (Some 1)))
            [CallFulfill 1010 1 [42]; CallRequest 6 1020 0xdef 9 (Some 2)])
       (CallRequest 6 1030 0xabc 8 (Some 3))
     = run (state_after deployed (requestRandomness deployed 5 1000 0xabc 9 (Some 1)))
           [CallFulfill 1010 1 [42]; CallRequest 6 1020 0xdef 9 (Some 2)].
Proof.
  apply (requestRandomness_one_shot deployed 5 1000 0xabc 9 (Some 1) 1
           (state_after deployed (requestRandomness deployed 5 1000 0xabc 9 (Some 1)))
           [CallFulfill 1010 1 [42]; CallRequest 6 1020 0xdef 9 (Some 2)]
           6 1030 8 (Some 3)).
  vm_compute. reflexivity.
Defined.

Lemma ledger_invariant_exec st c : ledger_invariant st -> ledger_invariant (exec st c).
Proof.
  intros [Hmark Huniq].
  destruct c as [sender now h salt coordinator | now rid ws | sender which v];
    cbn [exec].
  - unfold requestRandomness.
    destruct (isEntityProcessed st h) eqn:Hp; [by split |].
    destruct coordinator as [rid |]; [| by split].
    cbn [state_after]. split.
    + intros id r. cbn [s_requests]. unfold isEntityProcessed. cbn [processedEntityHashes].
      destruct (decide (rid = id)) as [-> | Hne].
      * rewrite lookup_insert_eq. intros [= <-]. cbn. by rewrite lookup_insert_eq.
      * rewrite lookup_insert_ne by exact Hne. intros Hr.
        specialize (Hmark id r Hr). unfold isEntityProcessed in Hmark.
        destruct (decide (h = entityHash r)) as [-> | Hne'].
        -- by rewrite lookup_insert_eq.
        -- by rewrite lookup_insert_ne.
    + intros id1 id2 r1 r2. cbn [s_requests].
      destruct (decide (rid = id1)) as [-> | Hne1];
        destruct (decide (id1 = id2)) as [Heq | Hne2]; try done.
      * rewrite lookup_insert_eq, lookup_insert_ne by exact Hne2.
        intros [= <-] Hr2 Hh. cbn in Hh.
        specialize (Hmark id2 r2 Hr2). congruence.
      * destruct (decide (rid = id2)) as [-> | Hne3].
        -- rewrite lookup_insert_ne, lookup_insert_eq by exact Hne1.
           intros Hr1 [= <-] Hh. cbn in Hh.
           specialize (Hmark id1 r1 Hr1). congruence.
        -- rewrite !lookup_insert_ne by done. apply Huniq.
  - unfold fulfillRandomWords, request_at.
    destruct (timestamp (default zero_request (s_requests st !! rid)) =? 0) eqn:Hts;
      [by split |].
    destruct (ws !! 0%nat) as [w |]; [| by split].
    destruct (s_requests st !! rid) as [r0 |] eqn:Hr0; [| discriminate].
    cbn [state_after default]. split.
    + intros id r. cbn [s_requests]. unfold isEntityProcessed. cbn [processedEntityHashes].
      destruct (decide (rid = id)) as [-> | Hne].
      * rewrite lookup_insert_eq. intros [= <-]. cbn. apply (Hmark id r0 Hr0).
      * rewrite lookup_insert_ne by exact Hne. apply Hmark.
    + intros id1 id2 r1 r2. cbn [s_requests].
      destruct (decide (rid = id1)) as [-> | Hne1];
        destruct (decide (id1 = id2)) as [Heq | Hne2]; try done.
      * rewrite lookup_insert_eq, lookup_insert_ne by exact Hne2.
        intros [= <-] Hr2 Hh. cbn in Hh. by apply (Huniq id1 id2 r0 r2).
      * destruct (decide (rid = id2)) as [-> | Hne3].
        -- rewrite lookup_insert_ne, lookup_insert_eq by exact Hne1.
           intros Hr1 [= <-] Hh. cbn in Hh. by apply (Huniq id1 id2 r1 r0).
        -- rewrite !lookup_insert_ne by done. apply Huniq.
  - unfold update. destruct (negb (sender =? owner st)); by split.
Qed.

Lemma ledger_invariant_reachable deployer subscriptionId keyHash calls :
  ledger_invariant (run (constructor deployer subscriptionId keyHash) calls).
Proof.
  unfold run.
  assert (H0 : ledger_invariant (constructor deployer subscriptionId keyHash)).
  { split; cbn; intros *; by rewrite lookup_empty. }
  revert H0. generalize (constructor deployer subscriptionId keyHash).
  induction calls as [| c calls IH]; intros st Hst; [exact Hst |].
  apply IH, ledger_invariant_exec, Hst.
Qed.

(** The second word delivered for a request replaces the first. *)
Lemma fulfillRandomWords_overwrites st now1 now2 rid v1 v2 st1 :
  fulfillRandomWords st now1 rid [v1] = Ok tt st1 ->
  exists st2,
    fulfillRandomWords st1 now2 rid [v2] = Ok tt st2
    /\ randomness (getRequest st1 rid) = v1
    /\ randomness (getRequest st2 rid) = v2.
Proof.
  unfold fulfillRandomWords, getRequest.
  destruct (timestamp (request_at st rid) =? 0) eqn:Hts; [discriminate |].
  cbn. intros [= <-]. unfold request_at at 1. cbn.
  rewrite lookup_insert_eq. cbn. rewrite Hts.
  eexists. split; [reflexivity |].
  unfold request_at. cbn. by rewrite !lookup_insert_eq.
Qed.

(** C2. On the ledger as written, [fulfillRandomWords] has no guard on
    [fulfilled]: the request of id 1 fulfilled with 0x111 and then with
    0x222 ends with randomness 0x222, not 0x111. *)
Theorem fulfill_twice_overwrites :
  let st1 := state_after deployed (requestRandomness deployed 5 1000 0xabc 9 (Some 1)) in
  let st2 := exec st1 (CallFulfill 1010 1 [0x111]) in
  let st3 := exec st2 (CallFulfill 1020 1 [0x222]) in
  randomness (getRequest st2 1) = 0x111
  /\ fulfilled (getRequest st2 1) = true
  /\ fulfillRandomWords st2 1020 1 [0x222] = Ok tt st3
  /\ randomness (getRequest st3 1) = 0x222
  /\ randomness (getRequest st3 1) <> 0x111.
Proof. vm_compute. repeat split; discriminate. Qed.

End RandomProofFacts.

(** ** The Math.random driver *)

Module MathRandomDriverFacts.
Import JS JSFacts MathRandomDriver.

(** The string hash of ["abc"] is 96354. *)
Example entity_hash_code_abc : entity_hash_code (js "abc") = 96354.
Proof. reflexivity. Qed.

(** A fresh driver asked for an entity hash it has never seen makes up a
    result, records it as completed and returns it. *)
Lemma fetchRandomness_unknown_fabricates :
  fst (fetchRandomness empty 1000 5 (js "abc")) = 96359
  /\ fst (fetchRandomness empty 1000 5 (js "abc")) <> 0
  /\ completedResults (snd (fetchRandomness empty 1000 5 (js "abc"))) !! js "abc"
     = Some 96359
  /\ pendingRequests empty !! js "abc" = None
  /\ completedResults empty !! js "abc" = None.
Proof. vm_compute. repeat split; discriminate. Qed.

(** Once a result is recorded, [fetchRandomness] returns it and changes
    nothing, at any time and whatever [Math.random] yields. *)
Lemma fetchRandomness_completed d now rnd h v :
  completedResults d !! h = Some v -> fetchRandomness d now rnd h = (v, d).
Proof. intros Hc. unfold fetchRandomness. by rewrite Hc. Qed.

(** A call either returns 0 for a request still waiting, or leaves its
    result recorded, so that every later call returns the same value. *)
Lemma fetchRandomness_records d now rnd h v d' :
  fetchRandomness d now rnd h = (v, d') ->
  completedResults d' !! h = Some v
  \/ (v = 0 /\ d' = d /\ completedResults d !! h = None).
Proof.
  unfold fetchRandomness.
  destruct (completedResults d !! h) as [v0 |] eqn:Hc.
  - intros [= <- <-]. by left.
  - destruct (pendingRequests d !! h) as [req |] eqn:Hp.
    + destruct (now - timestamp req <? 2000).
      * intros [= <- <-]. by right.
      * intros [= <- <-]. left. cbn. apply lookup_insert_eq.
    + intros [= <- <-]. left. cbn. apply lookup_insert_eq.
Qed.

Lemma fetchRandomness_stable d now rnd h v d' now' rnd' :
  fetchRandomness d now rnd h = (v, d') -> v <> 0 ->
  fetchRandomness d' now' rnd' h = (v, d').
Proof.
  intros Hf Hv. apply fetchRandomness_records in Hf as [Hc | (H0 & _)].
  - by apply fetchRandomness_completed.
  - contradiction.
Qed.

(** C4, as the driver is written.  An entity hash with no completed
    result: if it was requested less than 2000 ms ago, [fetchRandomness]
    returns 0 and changes nothing, in particular right after
    [requestRandomness]; if it was never requested, the driver makes up
    the value [|hash| + floor(Math.random() * 1000000)], records it as the
    completed result and returns it. *)
Theorem fetchRandomness_pending_or_fabricated (d : t) (now rnd : Z) (h : jsstring) :
  completedResults d !! h = None ->
  (forall req, pendingRequests d !! h = Some req -> now - timestamp req < 2000 ->
     fetchRandomness d now rnd h = (0, d))
  /\ (forall t0 randomPart saltBytes32, now - t0 < 2000 ->
        fst (fetchRandomness (snd (requestRandomness d t0 randomPart h saltBytes32))
               now rnd h) = 0)
  /\ (pendingRequests d !! h = None ->
        fst (fetchRandomness d now rnd h) = JS.add (Z.abs (entity_hash_code h)) rnd
        /\ completedResults (snd (fetchRandomness d now rnd h)) !! h
           = Some (JS.add (Z.abs (entity_hash_code h)) rnd)).
Proof.
  intros Hc. split; [| split].
  - intros req Hp Hlt. unfold fetchRandomness. rewrite Hc, Hp.
    destruct (Z.ltb_spec (now - timestamp req) 2000); [reflexivity | lia].
  - intros t0 randomPart saltBytes32 Hlt.
    unfold requestRandomness. rewrite Hc. cbn [snd].
    unfold fetchRandomness. cbn. rewrite Hc, lookup_insert_eq. cbn.
    destruct (Z.ltb_spec (now - t0) 2000); [reflexivity | lia].
  - intros Hp. unfold fetchRandomness. rewrite Hc, Hp. cbn.
    split; [reflexivity | apply lookup_insert_eq].
Qed.

Lemma fetchRandomness_pending_or_fabricated_witness :
  fst (fetchRandomness
         (snd (requestRandomness empty 1000 (js "k3j9x2a") (js "abc") Keccak.ZERO_BYTES32))
         1500 5 (js "abc")) = 0
  /\ fst (fetchRandomness empty 1500 5 (js "abc")) = 96359.
Proof.
  destruct (fetchRandomness_pending_or_fabricated empty 1500 5 (js "abc"))
    as (_ & Hreq & Hnew).
  - vm_compute. reflexivity.
  - split.
    + apply Hreq. vm_compute. reflexivity.
    + destruct Hnew as [Hv _]; [vm_compute; reflexivity |].
      rewrite Hv. vm_compute. reflexivity.
Defined.

End MathRandomDriverFacts.

(** ** The API3 QRNG driver *)

Module API3QRNGDriverFacts.
Import Samples JS API3QRNGDriver.

(** After the status call that delivers the number, the driver no longer
    knows the entity hash: the first fetch returns the number, every
    later one 0. *)
Lemma fetchRandomness_forgets d h rid rn v api2 :
  entityHashToRequestId d !! h = Some rid ->
  rid <> [] -> rn <> [] ->
  parseRandomNumber rn = Some v ->
  fetchRandomness d h
    (Responded {| response_status := completed; randomNumber := Some rn |})
  = (v, forget d h rid)
  /\ 0 < v
  /\ fetchRandomness (forget d h rid) h api2 = (0, forget d h rid).
Proof.
  intros Hid Hrid Hrn Hparse. split; [| split].
  - unfold fetchRandomness. rewrite Hid.
    rewrite (bool_decide_eq_false_2 _ Hrid). cbn.
    by rewrite (bool_decide_eq_false_2 _ Hrn), Hparse.
  - unfold parseRandomNumber in Hparse.
    destruct (parseInt16 _) as [value |]; [| discriminate].
    destruct (Z.leb_spec value 0); [by rewrite orb_true_r in Hparse |].
    destruct (negb (isSafeInteger value)); [discriminate |].
    cbn in Hparse. injection Hparse as <-. lia.
  - unfold fetchRandomness, forget. cbn. by rewrite lookup_delete_eq.
Qed.

(** C5. On the API3 driver: the entity hash is requested, the first
    status call answers [completed] with 0x2a and [fetchRandomness]
    returns 42; the next [fetchRandomness] for the same entity hash
    returns 0, whatever the service answers. *)
Theorem api3_fetch_reverts_to_zero :
  exists d1 d2,
    requestRandomness empty 3 1000 sample_hash (js "salt") [Responded (js "req-1")]
    = Some (js "req-1", d1)
    /\ fetchRandomness d1 sample_hash
         (Responded {| response_status := completed; randomNumber := Some (js "0x2a") |})
       = (42, d2)
    /\ (forall api2, fetchRandomness d2 sample_hash api2 = (0, d2)).
Proof.
  set (d1 := {| pendingRequests :=
                  <[js "req-1" := {| requestId := js "req-1";
                                     entityHash := sample_hash;
                                     salt := js "salt"; timestamp := 1000;
                                     request_status := pending |}]> ∅;
                entityHashToRequestId := <[sample_hash := js "req-1"]> ∅ |}).
  assert (Hid : entityHashToRequestId d1 !! sample_hash = Some (js "req-1"))
    by apply lookup_insert_eq.
  assert (Hrid : js "req-1" <> []) by discriminate.
  assert (Hrn : js "0x2a" <> []) by discriminate.
  assert (Hparse : parseRandomNumber (js "0x2a") = Some 42)
    by (vm_compute; reflexivity).
  exists d1, (forget d1 sample_hash (js "req-1")).
  split; [| split].
  - unfold requestRandomness.
    replace (validateInputs sample_hash (js "salt")) with true
      by (vm_compute; reflexivity).
    reflexivity.
  - apply (fetchRandomness_forgets d1 sample_hash (js "req-1") (js "0x2a") 42
             Thrown Hid Hrid Hrn Hparse).
  - intros api2.
    apply (fetchRandomness_forgets d1 sample_hash (js "req-1") (js "0x2a") 42
             api2 Hid Hrid Hrn Hparse).
Qed.

End API3QRNGDriverFacts.

(** ** Printing and parsing in base 16 *)

Module HexFacts.
Import JS JSFacts.

Lemma hex_value_digit d : 0 <= d < 16 -> hex_value (hex_digit d) = Some d.
Proof.
  intros Hd.
  assert (Hcases : d = 0 \/ d = 1 \/ d = 2 \/ d = 3 \/ d = 4 \/ d = 5 \/ d = 6 \/ d = 7
                   \/ d = 8 \/ d = 9 \/ d = 10 \/ d = 11 \/ d = 12 \/ d = 13 \/ d = 14
                   \/ d = 15) by lia.
  repeat (destruct Hcases as [-> | Hcases]; [reflexivity |]).
  subst d. reflexivity.
Qed.

Lemma is_hex_digit_value c : is_hex_digit c = true -> exists d, hex_value c = Some d /\ 0 <= d < 16.
Proof.
  unfold is_hex_digit, hex_value. intros Hc.
  destruct ((48 <=? c)%N && (c <=? 57)%N) eqn:H1.
  - exists (Z.of_N c - 48). split; [reflexivity |].
    apply andb_true_iff in H1 as [Ha Hb].
    apply N.leb_le in Ha. apply N.leb_le in Hb. lia.
  - simpl in Hc. rewrite Hc. exists (Z.of_N c - 87). split; [reflexivity |].
    apply andb_true_iff in Hc as [Ha Hb].
    apply N.leb_le in Ha. apply N.leb_le in Hb. lia.
Qed.

Lemma is_hex_digit_not_space c : is_hex_digit c = true -> is_whitespace c = false.
Proof.
  unfold is_hex_digit. intros Hc.
  assert (Hrange : (48 <= c <= 102)%N).
  { apply orb_true_iff in Hc as [Hc | Hc]; apply andb_true_iff in Hc as [Ha Hb];
      apply N.leb_le in Ha; apply N.leb_le in Hb; lia. }
  unfold is_whitespace.
  assert (H1 : (c <=? 13)%N = false) by (apply N.leb_gt; lia).
  assert (H2 : (8192 <=? c)%N = false) by (apply N.leb_gt; lia).
  assert (Heq : forall k, (k < 48 \/ 102 < k)%N -> (c =? k)%N = false)
    by (intros k Hk; apply N.eqb_neq; lia).
  rewrite H1, H2, !andb_false_r, !Heq by lia. reflexivity.
Qed.

Lemma hex_digits_acc fuel z acc : hex_digits fuel z acc = hex_digits fuel z [] ++ acc.
Proof.
  revert z acc. induction fuel as [| fuel IH]; intros z acc; simpl; [reflexivity |].
  destruct (z <? 16); [reflexivity |].
  rewrite (IH _ (_ :: acc)), (IH _ [_]). by rewrite <- app_assoc.
Qed.

Lemma hex_prefix_app s1 s2 acc :
  Forall (fun c => is_hex_digit c = true) s1 ->
  hex_prefix (s1 ++ s2) acc = hex_prefix s2 (hex_prefix s1 acc).
Proof.
  intros Hs. revert acc. induction Hs as [| c s1 Hc _ IH]; intros acc; [reflexivity |].
  simpl. destruct (is_hex_digit_value c Hc) as (d & -> & _). apply IH.
Qed.

(** Reading back the digits printed for [z], after a value [a] already
    read, gives [a] shifted by as many digits, plus [z]. *)
Lemma hex_prefix_digits fuel z a :
  0 <= z < 16 ^ Z.of_nat fuel ->
  hex_prefix (hex_digits fuel z []) (Some a)
  = Some (a * 16 ^ Z.of_nat (length (hex_digits fuel z [])) + z).
Proof.
  revert z a. induction fuel as [| fuel IH]; intros z a Hz.
  - simpl in *. assert (z = 0) by lia. subst. f_equal. lia.
  - cbn [hex_digits]. destruct (Z.ltb_spec z 16) as [Hlt | Hge].
    + cbn. rewrite hex_value_digit by lia. cbn. f_equal. lia.
    + assert (Hfuel : (0 < fuel)%nat).
      { destruct fuel; [| lia]. simpl in Hz. lia. }
      assert (Hq : 0 <= z / 16 < 16 ^ Z.of_nat fuel).
      { split; [apply Z.div_pos; lia |].
        apply Z.div_lt_upper_bound; [lia |].
        rewrite Nat2Z.inj_succ, Z.pow_succ_r in Hz by lia. lia. }
      rewrite hex_digits_acc.
      rewrite hex_prefix_app
        by (apply hex_digits_are_hex; [lia | constructor]).
      rewrite (IH _ a Hq). cbn.
      rewrite hex_value_digit by (apply Z.mod_pos_bound; lia). cbn.
      rewrite length_app. cbn [length].
      rewrite Nat2Z.inj_add. change (Z.of_nat 1) with 1.
      rewrite Z.pow_add_r, Z.pow_1_r by lia.
      f_equal. pose proof (Z.div_mod z 16 ltac:(lia)). lia.
Qed.

Lemma hex_digits_nonempty fuel z : hex_digits (S fuel) z [] <> [].
Proof.
  cbn [hex_digits]. destruct (z <? 16); [discriminate |].
  rewrite hex_digits_acc. intros H. apply app_eq_nil in H as [_ H]. discriminate.
Qed.

(** A number below [16^k] prints with at most [k] digits. *)
Lemma hex_digits_length fuel z k :
  0 <= z < 16 ^ Z.of_nat k -> (0 < k)%nat ->
  (length (hex_digits fuel z []) <= k)%nat.
Proof.
  revert z k. induction fuel as [| fuel IH]; intros z k Hz Hk; [simpl; lia |].
  cbn [hex_digits]. destruct (Z.ltb_spec z 16) as [Hlt | Hge]; [simpl; lia |].
  rewrite hex_digits_acc, length_app. cbn [length].
  destruct k as [| k]; [lia |].
  assert (Hk' : (0 < k)%nat).
  { destruct k; [| lia]. simpl in Hz. lia. }
  assert (Hq : 0 <= z / 16 < 16 ^ Z.of_nat k).
  { split; [apply Z.div_pos; lia |].
    apply Z.div_lt_upper_bound; [lia |].
    rewrite Nat2Z.inj_succ, Z.pow_succ_r in Hz by lia. lia. }
  specialize (IH _ _ Hq Hk'). lia.
Qed.

Lemma toString16_fuel z : 0 <= z -> z < 16 ^ Z.of_nat (S (Z.to_nat (Z.log2 z))).
Proof.
  intros Hz.
  pose proof (Z.log2_nonneg z) as Hl.
  rewrite Nat2Z.inj_succ, Z2Nat.id by exact Hl.
  destruct (Z.eq_dec z 0) as [-> | Hnz]; [reflexivity |].
  pose proof (Z.log2_spec z ltac:(lia)) as [_ Hup].
  eapply Z.lt_le_trans; [exact Hup |].
  apply Z.pow_le_mono_l. lia.
Qed.

Lemma toString16_nonneg z : 0 <= z -> toString16 z = hex_digits (S (Z.to_nat (Z.log2 z))) z [].
Proof.
  intros Hz. unfold toString16. rewrite Z.abs_eq by exact Hz.
  destruct (Z.ltb_spec z 0); [lia | reflexivity].
Qed.

Lemma hex_prefix_toString16 z a :
  0 <= z ->
  hex_prefix (toString16 z) (Some a)
  = Some (a * 16 ^ Z.of_nat (length (toString16 z)) + z).
Proof.
  intros Hz. rewrite toString16_nonneg by exact Hz.
  apply hex_prefix_digits. split; [exact Hz | by apply toString16_fuel].
Qed.

Lemma sign_of_digit (c : N) (s : jsstring) :
  c <> 45%N -> c <> 43%N ->
  match c :: s with
  | 45%N :: t => (-1, t)
  | 43%N :: t => (1, t)
  | _ => (1, c :: s)
  end = (1, c :: s).
Proof.
  intros H45 H43. destruct c as [| p]; [reflexivity |].
  do 6 (try destruct p as [p | p |]); try reflexivity; congruence.
Qed.

Lemma strip_0x_digits c s :
  match s with [] => True | x :: _ => x <> 120%N /\ x <> 88%N end ->
  strip_0x (c :: s) = c :: s.
Proof.
  intros Hs. unfold strip_0x.
  destruct s as [| x s'].
  - destruct c as [| p]; [reflexivity |].
    do 6 (try destruct p as [p | p |]); reflexivity.
  - destruct Hs as [H120 H88].
    assert (Hx : ((x =? 120) || (x =? 88))%N = false).
    { destruct (N.eqb_spec x 120); [done |]. by destruct (N.eqb_spec x 88). }
    destruct c as [| p]; [reflexivity |].
    do 6 (try destruct p as [p | p |]); try reflexivity; by rewrite Hx.
Qed.

(** A string that starts with a lowercase hexadecimal digit and is all
    such digits is read whole by [parseInt(s, 16)]. *)
Lemma parseInt16_hex s :
  s <> [] -> Forall (fun c => is_hex_digit c = true) s ->
  parseInt16 s = option_map round_double (hex_prefix s (Some 0)).
Proof.
  intros Hne Hs. destruct s as [| c s]; [done |].
  apply Forall_cons in Hs as [Hc Hs].
  unfold parseInt16. cbn [trimStart]. rewrite (is_hex_digit_not_space c Hc).
  rewrite sign_of_digit by (intros ->; discriminate).
  rewrite strip_0x_digits.
  - cbn [hex_prefix]. destruct (is_hex_digit_value c Hc) as (d & -> & _).
    cbn. destruct (hex_prefix s _) as [v |]; [| reflexivity].
    cbn. by rewrite Z.mul_1_l.
  - destruct s as [| x s']; [exact I |].
    apply Forall_cons in Hs as [Hx _]. split; intros ->; discriminate.
Qed.

(** Printing a non-negative safe integer in base 16 and parsing the
    digits back with [parseInt(_, 16)] gives the integer again. *)
Lemma parseInt16_toString16 (z : Z) :
  0 <= z <= MAX_SAFE_INTEGER -> parseInt16 (toString16 z) = Some z.
Proof.
  intros Hz. unfold MAX_SAFE_INTEGER in Hz.
  rewrite parseInt16_hex.
  - rewrite hex_prefix_toString16 by lia. cbn [option_map]. f_equal.
    rewrite Z.mul_0_l, Z.add_0_l.
    unfold round_double. rewrite Z.abs_eq by lia.
    destruct (Z.ltb_spec z (2 ^ 53)); [reflexivity | lia].
  - rewrite toString16_nonneg by lia. apply hex_digits_nonempty.
  - apply toString16_is_hex. lia.
Qed.

End HexFacts.

(** ** Digests as strings *)

Module DigestFacts.
Import JS JSFacts HexFacts Hashing Keccak Digest.

Lemma hex_of_byte_cases b :
  is_byte b ->
  hex_of_byte b = toString16 b /\ length (toString16 b) = 2%nat
  \/ hex_of_byte b = 48%N :: toString16 b /\ length (toString16 b) = 1%nat.
Proof.
  intros Hb. unfold is_byte in Hb. unfold hex_of_byte, padStart.
  assert (Hle : (length (toString16 b) <= 2)%nat).
  { rewrite toString16_nonneg by lia. apply hex_digits_length; [| lia].
    change (16 ^ Z.of_nat 2) with 256. lia. }
  assert (Hge : (1 <= length (toString16 b))%nat).
  { rewrite toString16_nonneg by lia.
    pose proof (hex_digits_nonempty (Z.to_nat (Z.log2 b)) b) as Hne.
    destruct (hex_digits _ b []); [done | simpl; lia]. }
  destruct (decide (length (toString16 b) = 2%nat)) as [H2 | H2].
  - left. by rewrite H2.
  - right. assert (H1 : length (toString16 b) = 1%nat) by lia. by rewrite H1.
Qed.

Lemma hex_of_byte_length b : is_byte b -> length (hex_of_byte b) = 2%nat.
Proof.
  intros Hb. destruct (hex_of_byte_cases b Hb) as [[-> H] | [-> H]];
    [exact H | simpl; by rewrite H].
Qed.

Lemma hex_of_byte_is_hex b :
  is_byte b -> Forall (fun c => is_hex_digit c = true) (hex_of_byte b).
Proof.
  intros Hb. pose proof (toString16_is_hex b ltac:(unfold is_byte in Hb; lia)) as Hd.
  destruct (hex_of_byte_cases b Hb) as [[-> _] | [-> _]]; [exact Hd |].
  by constructor.
Qed.

(** The two digits of a byte read back as the byte. *)
Lemma hex_of_byte_value b : is_byte b -> hex_prefix (hex_of_byte b) (Some 0) = Some b.
Proof.
  intros Hb. assert (0 <= b) by (unfold is_byte in Hb; lia).
  destruct (hex_of_byte_cases b Hb) as [[-> H2] | [-> H1]].
  - rewrite hex_prefix_toString16 by lia. f_equal; try lia.
  - cbn [hex_prefix hex_value]. cbn.
    rewrite hex_prefix_toString16 by lia. f_equal; try lia.
Qed.

Lemma hex_of_bytes_length bs :
  Forall is_byte bs -> length (hex_of_bytes bs) = (2 * length bs)%nat.
Proof.
  unfold hex_of_bytes. induction 1 as [| b bs Hb _ IH]; [reflexivity |].
  cbn [map concat]. rewrite length_app, hex_of_byte_length, IH by exact Hb.
  cbn [length]. lia.
Qed.

Lemma hex_of_bytes_is_hex bs :
  Forall is_byte bs -> Forall (fun c => is_hex_digit c = true) (hex_of_bytes bs).
Proof.
  unfold hex_of_bytes. induction 1 as [| b bs Hb _ IH]; [constructor |].
  cbn [map concat]. apply Forall_app. split; [by apply hex_of_byte_is_hex | exact IH].
Qed.

Lemma hex_of_bytes_inj bs bs' :
  Forall is_byte bs -> Forall is_byte bs' ->
  hex_of_bytes bs = hex_of_bytes bs' -> bs = bs'.
Proof.
  intros Hbs. revert bs'. induction Hbs as [| b bs Hb Hbs IH]; intros bs' Hbs' Heq.
  - destruct Hbs' as [| b' bs' Hb' _]; [reflexivity |].
    apply (f_equal length) in Heq.
    unfold hex_of_bytes in Heq. cbn [map concat] in Heq.
    rewrite length_app, hex_of_byte_length in Heq by exact Hb'. simpl in Heq. lia.
  - destruct Hbs' as [| b' bs' Hb' Hbs'].
    + apply (f_equal length) in Heq.
      unfold hex_of_bytes in Heq. cbn [map concat] in Heq.
      rewrite length_app, hex_of_byte_length in Heq by exact Hb. simpl in Heq. lia.
    + unfold hex_of_bytes in Heq. cbn [map concat] in Heq.
      apply app_inj_1 in Heq as [Hhead Htail];
        [| by rewrite !hex_of_byte_length].
      f_equal.
      * apply (f_equal (fun s => hex_prefix s (Some 0))) in Hhead.
        rewrite !hex_of_byte_value in Hhead by assumption. congruence.
      * by apply IH.
Qed.

Section WithPlatform.
Variable encode : jsstring -> list Z.
Variable digest_sha256 : list Z -> list Z.
Hypothesis digest_is_32_bytes :
  forall data, length (digest_sha256 data) = 32%nat /\ Forall is_byte (digest_sha256 data).

(** X1. When the platform digest yields 32 bytes, [sha256Hash] returns
    exactly 64 lowercase hexadecimal digits, and such an entity hash,
    with a salt of at most 1000 characters, passes the input validation of
    the API3 driver. *)
Theorem sha256Hash_format (input salt : jsstring) :
  (length salt <= 1000)%nat ->
  length (sha256Hash encode digest_sha256 input) = 64%nat
  /\ Forall (fun c => is_hex_digit c = true) (sha256Hash encode digest_sha256 input)
  /\ API3QRNGDriver.validateInputs (sha256Hash encode digest_sha256 input) salt = true.
Proof.
  intros Hsalt. unfold sha256Hash.
  destruct (digest_is_32_bytes (encode input)) as [Hlen Hbytes].
  pose proof (hex_of_bytes_length _ Hbytes) as Hl. rewrite Hlen in Hl.
  pose proof (hex_of_bytes_is_hex _ Hbytes) as Hh.
  split; [exact Hl |]. split; [exact Hh |].
  unfold API3QRNGDriver.validateInputs.
  set (h := hex_of_bytes (digest_sha256 (encode input))) in *.
  assert (Hne : h <> []) by (intros E; rewrite E in Hl; discriminate).
  rewrite (bool_decide_eq_false_2 _ Hne), Hl.
  assert (Hall : forallb API3QRNGDriver.is_hex_char h = true).
  { apply forallb_forall. intros c Hc.
    apply list_elem_of_In in Hc.
    rewrite Forall_forall in Hh. unfold API3QRNGDriver.is_hex_char.
    by rewrite (Hh c Hc). }
  assert (Hlt : (1000 <? length salt)%nat = false) by (apply Nat.ltb_ge; lia).
  rewrite Hall, Hlt, andb_false_r. reflexivity.
Qed.

(** X2. The hexadecimal rendering loses nothing: two inputs have the same
    [sha256Hash] string exactly when their digests are the same bytes. *)
Theorem sha256Hash_eq_iff (x y : jsstring) :
  sha256Hash encode digest_sha256 x = sha256Hash encode digest_sha256 y
  <-> digest_sha256 (encode x) = digest_sha256 (encode y).
Proof.
  unfold sha256Hash. split; [| by intros ->].
  apply hex_of_bytes_inj; apply digest_is_32_bytes.
Qed.

End WithPlatform.

Lemma sha256Hash_format_witness :
  length (sha256Hash (map Z.of_N) (fun _ => replicate 32 171) (js "Alice")) = 64%nat.
Proof.
  refine (proj1 (sha256Hash_format (map Z.of_N) (fun _ => replicate 32 171) _
                   (js "Alice") (js "s1") _)).
  - intros data. split; [reflexivity |].
    apply Forall_replicate. unfold is_byte. lia.
  - simpl. lia.
Defined.

Lemma sha256Hash_eq_iff_witness :
  sha256Hash (map Z.of_N) (fun bs => replicate 31 0 ++ [Z.of_nat (length bs) mod 256])
    (js "ab")
  <> sha256Hash (map Z.of_N) (fun bs => replicate 31 0 ++ [Z.of_nat (length bs) mod 256])
       (js "abc").
Proof.
  intros Heq.
  apply (sha256Hash_eq_iff (map Z.of_N)
           (fun bs => replicate 31 0 ++ [Z.of_nat (length bs) mod 256])) in Heq.
  - vm_compute in Heq. discriminate.
  - intros data. split.
    + rewrite length_app, length_replicate. reflexivity.
    + apply Forall_app. split.
      * apply Forall_replicate. unfold is_byte. lia.
      * constructor; [| constructor]. unfold is_byte. apply Z.mod_pos_bound. lia.
Defined.

(** The entity hash does not tell where the data ends and the salt
    begins. *)
Lemma computeEntityHash_boundary encode digest_sha256 (data x salt : jsstring) :
  computeEntityHash encode digest_sha256 (data ++ x) salt
  = computeEntityHash encode digest_sha256 data (x ++ salt).
Proof. unfold computeEntityHash. by rewrite <- app_assoc. Qed.

Lemma ZERO_BYTES32_shaped : bytes32_shaped ZERO_BYTES32.
Proof.
  split; [reflexivity |]. split; [reflexivity |].
  change (drop 2 ZERO_BYTES32) with (replicate 64 48%N).
  by apply Forall_replicate.
Qed.

(** X3. [stringToBytes32] and [saltToBytes32] always return a string of
    the bytes32 form, [0x] and 64 hexadecimal digits, whether keccak
    answers with its 32 bytes or throws, and for every salt, null
    included. *)
Theorem saltToBytes32_shape (keccak256 : jsstring -> option (list Z))
    (salt : option jsstring) :
  (forall input hash, keccak256 input = Some hash ->
     length hash = 32%nat /\ Forall is_byte hash) ->
  (forall input, bytes32_shaped (stringToBytes32 keccak256 input))
  /\ bytes32_shaped (saltToBytes32 keccak256 salt).
Proof.
  intros Hk.
  assert (Hs : forall input, bytes32_shaped (stringToBytes32 keccak256 input)).
  { intros input. unfold stringToBytes32.
    destruct (keccak256 input) as [hash |] eqn:Hh.
    - destruct (Hk input hash Hh) as [Hlen Hbytes].
      change (js "0x") with [48%N; 120%N].
      split; [| split].
      + cbn [app length]. rewrite hex_of_bytes_length, Hlen by exact Hbytes. reflexivity.
      + reflexivity.
      + cbn [app drop]. by apply hex_of_bytes_is_hex.
    - apply KeccakFacts.simpleFallbackHash_shape. }
  split; [exact Hs |].
  unfold saltToBytes32. destruct salt as [s |]; [| apply ZERO_BYTES32_shaped].
  destruct (falsy (Some s) || bool_decide (trim s = []));
    [apply ZERO_BYTES32_shaped | apply Hs].
Qed.

Lemma saltToBytes32_shape_witness :
  bytes32_shaped
    (saltToBytes32 (fun s => if bool_decide (s = js "x") then None
                             else Some (replicate 32 (Z.of_nat (length s) mod 256)))
       (Some (js " x "))).
Proof.
  refine (proj2 (saltToBytes32_shape _ (Some (js " x ")) _)).
  intros input hash. destruct (bool_decide (input = js "x")); [discriminate |].
  intros [= <-]. split; [reflexivity |].
  repeat (constructor; [unfold is_byte; apply Z.mod_pos_bound; lia |]).
  constructor.
Defined.

End DigestFacts.

(** ** The string hash of the drivers and of the fallback digest *)

Module StringHashFacts.
Import JS JSFacts HexFacts Keccak Digest.

Lemma to_int32_shift z k : to_int32 (z + k * 2 ^ 32) = to_int32 z.
Proof. unfold to_int32. by rewrite Z_mod_plus_full. Qed.

Lemma to_int32_decomp z : exists k, to_int32 z = z + k * 2 ^ 32.
Proof.
  unfold to_int32. pose proof (Z.div_mod z (2 ^ 32) ltac:(lia)) as Hdm.
  destruct (z mod 2 ^ 32 <? 2 ^ 31).
  - exists (- (z / 2 ^ 32)). lia.
  - exists (- (z / 2 ^ 32) - 1). lia.
Qed.

Lemma round_double_small z : Z.abs z < 2 ^ 53 -> round_double z = z.
Proof.
  intros Hz. unfold round_double.
  destruct (Z.ltb_spec (Z.abs z) (2 ^ 53)); [reflexivity | lia].
Qed.

Lemma round_double_opp z : round_double (- z) = - round_double z.
Proof.
  unfold round_double. rewrite Z.abs_opp, Z.sgn_opp.
  destruct (Z.abs z <? 2 ^ 53); [reflexivity | lia].
Qed.

Lemma round_double_abs z : Z.abs (round_double z) = round_double (Z.abs z).
Proof.
  destruct (Z.abs_spec z) as [[Hz ->] | [Hz ->]].
  - apply Z.abs_eq. by apply round_double_nonneg.
  - rewrite round_double_opp. rewrite <- Z.abs_opp, <- round_double_opp.
    apply Z.abs_eq. apply round_double_nonneg. lia.
Qed.

(** Rounding a number of at most 56 bits adds at most 8. *)
Lemma round_double_56 z : 0 <= z < 2 ^ 56 -> round_double z <= z + 8.
Proof.
  intros Hz. pose proof (round_double_upper z ltac:(lia)) as Hup.
  assert (Hlog : Z.log2 z <= 55).
  { destruct (Z.eq_dec z 0) as [-> | Hnz]; [simpl; lia |].
    assert (Z.log2 z < 56); [| lia]. apply Z.log2_lt_pow2; lia. }
  assert (2 ^ (Z.log2 z - 52) <= 2 ^ 3); [| lia].
  destruct (Z.lt_ge_cases (Z.log2 z - 52) 0).
  - rewrite Z.pow_neg_r by lia. lia.
  - apply Z.pow_le_mono_r; lia.
Qed.

Lemma and32_diag x : and32 x x = to_int32 x.
Proof.
  unfold and32. rewrite Z.land_diag. apply to_int32_small, to_int32_range.
Qed.

(** One turn of the loop, [hash = ((hash << 5) - hash) + char] cut to 32
    bits, multiplies by 31 and adds the code unit. *)
Lemma hash_step_31 h c :
  - 2 ^ 31 <= h < 2 ^ 31 -> is_code_unit c ->
  hash_step h c = to_int32 (31 * h + Z.of_N c).
Proof.
  intros Hh Hc. unfold is_code_unit in Hc. unfold hash_step, JS.add, shl32.
  rewrite (to_int32_small h Hh), Z.shiftl_mul_pow2 by lia.
  pose proof (to_int32_range (h * 2 ^ 5)) as Hr.
  destruct (to_int32_decomp (h * 2 ^ 5)) as [k Hk].
  rewrite (round_double_small (to_int32 (h * 2 ^ 5) + - h)) by lia.
  rewrite round_double_small by lia.
  rewrite and32_diag, Hk.
  replace (h * 2 ^ 5 + k * 2 ^ 32 + - h + Z.of_N c)
    with (31 * h + Z.of_N c + k * 2 ^ 32) by lia.
  apply to_int32_shift.
Qed.

Lemma hash_step_range h c : - 2 ^ 31 <= hash_step h c < 2 ^ 31.
Proof. unfold hash_step. rewrite and32_diag. apply to_int32_range. Qed.

Lemma hash_code_range s : - 2 ^ 31 <= foldl hash_step 0 s < 2 ^ 31.
Proof.
  induction s as [| c s _] using rev_ind; [simpl; lia |].
  rewrite foldl_app. cbn [foldl]. apply hash_step_range.
Qed.

Lemma hash_code_polynomial_from s p :
  Forall is_code_unit s ->
  foldl hash_step (to_int32 p) s = to_int32 (foldl (fun a c => 31 * a + Z.of_N c) p s).
Proof.
  intros Hs. revert p. induction Hs as [| c s Hc _ IH]; intros p; [reflexivity |].
  cbn [foldl]. rewrite <- IH. f_equal.
  rewrite hash_step_31 by (try apply to_int32_range; exact Hc).
  destruct (to_int32_decomp p) as [k ->].
  replace (31 * (p + k * 2 ^ 32) + Z.of_N c)
    with (31 * p + Z.of_N c + 31 * k * 2 ^ 32) by lia.
  apply to_int32_shift.
Qed.

(** X4. The hash that the Math.random driver and the mock contract
    compute over an entity hash is the polynomial hash with multiplier 31
    cut to a signed 32-bit integer; the mock's [fetchRandomness] is its
    absolute value, a number from 0 to 2^31. *)
Theorem entity_hash_code_polynomial (entityHash : jsstring) :
  Forall is_code_unit entityHash ->
  MathRandomDriver.entity_hash_code entityHash = to_int32 (polynomial_hash entityHash)
  /\ MockBlockchainContract.fetchRandomness entityHash
     = Z.abs (to_int32 (polynomial_hash entityHash))
  /\ 0 <= MockBlockchainContract.fetchRandomness entityHash <= 2 ^ 31.
Proof.
  intros Hs.
  assert (Hp : foldl hash_step 0 entityHash = to_int32 (polynomial_hash entityHash)).
  { change 0 with (to_int32 0) at 1. by apply hash_code_polynomial_from. }
  unfold MathRandomDriver.entity_hash_code, MockBlockchainContract.fetchRandomness.
  rewrite Hp. split; [reflexivity |]. split; [reflexivity |].
  pose proof (to_int32_range (polynomial_hash entityHash)). lia.
Qed.

Lemma entity_hash_code_polynomial_witness :
  MathRandomDriver.entity_hash_code (js "abc") = to_int32 (97 * 31 * 31 + 98 * 31 + 99).
Proof.
  refine (proj1 (entity_hash_code_polynomial (js "abc") _)).
  repeat constructor.
Defined.

(** The second hash of the fallback stays below 2^31 * 16777619 + 8 in
    absolute value. *)
Lemma hash2_step_bound h c : Z.abs (hash2_step h c) <= 2 ^ 31 * 16777619 + 8.
Proof.
  unfold hash2_step, JS.mul, xor32.
  set (x := to_int32 _).
  assert (Hx : - 2 ^ 31 <= x < 2 ^ 31) by apply to_int32_range.
  rewrite round_double_abs.
  assert (Hz : 0 <= Z.abs (x * 16777619) <= 2 ^ 31 * 16777619).
  { rewrite Z.abs_mul. change (Z.abs 16777619) with 16777619. lia. }
  pose proof (round_double_56 (Z.abs (x * 16777619)) ltac:(lia)). lia.
Qed.

Lemma hash2_bound s : Z.abs (foldl hash2_step 0x811c9dc5 s) <= 2 ^ 31 * 16777619 + 8.
Proof.
  induction s as [| c s _] using rev_ind; [simpl; lia |].
  rewrite foldl_app. cbn [foldl]. apply hash2_step_bound.
Qed.

(** X5. The fallback digest never uses more than its last 14 digits: the
    first 50 of the 64 are 0 for every input, so it holds at most 56 bits
    of the input. *)
Theorem simpleFallbackHash_leading_zeros (input : jsstring) :
  take 52 (simpleFallbackHash input) = js "0x" ++ replicate 50 48%N.
Proof.
  unfold simpleFallbackHash.
  set (v := JS.add _ _).
  assert (Hv : 0 <= v < 16 ^ Z.of_nat 14).
  { unfold v, JS.add. split; [apply round_double_nonneg; lia |].
    pose proof (hash_code_range input). pose proof (hash2_bound input).
    pose proof (round_double_56
                  (Z.abs (foldl hash_step 0 input)
                   + Z.abs (foldl hash2_step 0x811c9dc5 input)) ltac:(lia)).
    change (16 ^ Z.of_nat 14) with (2 ^ 56). lia. }
  assert (Hlen : (length (toString16 v) <= 14)%nat).
  { rewrite toString16_nonneg by lia. apply hex_digits_length; [exact Hv | lia]. }
  change (js "0x") with [48%N; 120%N]. cbn [app take]. do 2 f_equal.
  unfold padStart.
  replace (64 - length (toString16 v))%nat
    with (50 + (14 - length (toString16 v)))%nat by lia.
  rewrite replicate_add, <- app_assoc, take_take.
  change (50 `min` 64)%nat with 50%nat.
  rewrite take_app_le by (rewrite length_replicate; lia).
  apply take_ge. rewrite length_replicate. lia.
Qed.

Lemma hex_prefix_nonneg s a v :
  0 <= a -> hex_prefix s (Some a) = Some v -> 0 <= v.
Proof.
  revert a. induction s as [| c s IH]; intros a Ha; cbn [hex_prefix].
  - intros [= <-]. exact Ha.
  - destruct (hex_value c) as [d |] eqn:Hd; [| intros [= <-]; exact Ha].
    apply IH. cbn.
    assert (0 <= d); [| lia].
    unfold hex_value in Hd.
    repeat match type of Hd with
      | (if ?b then _ else _) = _ => destruct b eqn:?
      end; try discriminate; injection Hd as <-;
      repeat match goal with
        | H : (_ && _) = true |- _ => apply andb_true_iff in H as [? ?]
        | H : (_ <=? _)%N = true |- _ => apply N.leb_le in H
        end; lia.
Qed.

(** X6. The driver keyed on the hash digits: for an entity hash made of
    lowercase hexadecimal digits, [fetchRandomness] is 0 exactly while a
    request for it is less than 2000 ms old, and a positive number
    otherwise, requested or not. *)
Theorem seed_driver_fetch (d : SeedDriver.t) (now : Z) (entityHash : jsstring) :
  entityHash <> [] ->
  Forall (fun c => is_hex_digit c = true) entityHash ->
  (forall request,
     SeedDriver.pendingRequests d !! entityHash = Some request ->
     now - MathRandomDriver.timestamp request < 2000 ->
     SeedDriver.fetchRandomness d now entityHash = 0)
  /\ ((forall request,
         SeedDriver.pendingRequests d !! entityHash = Some request ->
         2000 <= now - MathRandomDriver.timestamp request) ->
      0 < SeedDriver.fetchRandomness d now entityHash).
Proof.
  intros Hne Hhex.
  assert (Hpos : 0 < SeedDriver.seed_or_fallback (parseInt16 (take 16 entityHash))).
  { rewrite parseInt16_hex.
    - destruct (hex_prefix (take 16 entityHash) (Some 0)) as [v |] eqn:Hv; [| reflexivity].
      cbn. apply hex_prefix_nonneg in Hv; [| lia].
      pose proof (round_double_nonneg v Hv).
      destruct (Z.eqb_spec (round_double v) 0); lia.
    - destruct entityHash; [done | discriminate].
    - by apply Forall_take. }
  split.
  - intros request Hp Hlt. unfold SeedDriver.fetchRandomness. rewrite Hp.
    destruct (Z.ltb_spec (now - MathRandomDriver.timestamp request) 2000); [reflexivity | lia].
  - intros Hold. unfold SeedDriver.fetchRandomness.
    destruct (SeedDriver.pendingRequests d !! entityHash) as [request |] eqn:Hp;
      [| exact Hpos].
    specialize (Hold request eq_refl).
    destruct (Z.ltb_spec (now - MathRandomDriver.timestamp request) 2000); [lia | exact Hpos].
Qed.

Lemma seed_driver_fetch_witness :
  SeedDriver.fetchRandomness
    (snd (SeedDriver.requestRandomness {| SeedDriver.pendingRequests := ∅ |} 1000
            Samples.sample_hash Keccak.ZERO_BYTES32))
    1500 Samples.sample_hash = 0
  /\ 0 < SeedDriver.fetchRandomness
           (snd (SeedDriver.requestRandomness {| SeedDriver.pendingRequests := ∅ |} 1000
                   Samples.sample_hash Keccak.ZERO_BYTES32))
           3000 Samples.sample_hash.
Proof.
  split.
  - refine (proj1 (seed_driver_fetch _ 1500 Samples.sample_hash _ _) _ _ _).
    + discriminate.
    + vm_compute. repeat constructor.
    + apply lookup_insert_eq.
    + vm_compute. reflexivity.
  - refine (proj2 (seed_driver_fetch _ 3000 Samples.sample_hash _ _) _).
    + discriminate.
    + vm_compute. repeat constructor.
    + intros request Hr. cbn in Hr. rewrite lookup_insert_eq in Hr.
      injection Hr as <-. vm_compute. discriminate.
Defined.

End StringHashFacts.

(** ** The ledger: views, log and records *)

Module LedgerFacts.
Import RandomProof RandomProofViews RandomProofFacts.

Lemma copy_ids_spec ids offset steps i result :
  length result = (i + steps)%nat ->
  (offset + i + steps <= length ids)%nat ->
  copy_ids ids offset steps i result
  = take i result ++ take steps (drop (offset + i) ids).
Proof.
  revert i result. induction steps as [| steps IH]; intros i result Hlen Hids.
  - cbn [copy_ids take]. rewrite app_nil_r, take_ge by lia. reflexivity.
  - cbn [copy_ids].
    destruct (lookup_lt_is_Some_2 ids (offset + i)%nat ltac:(lia)) as [x Hx].
    rewrite Hx. cbn [default].
    rewrite IH by (rewrite ?length_insert; lia).
    rewrite (take_S_r _ i x) by (apply list_lookup_insert_eq; lia).
    rewrite take_insert_ge by lia.
    rewrite (drop_S ids x (offset + i) Hx). cbn [take].
    replace (offset + S i)%nat with (S (offset + i)) by lia.
    by rewrite <- app_assoc.
Qed.

Lemma getRequestIds_take_drop (st : state) (offset limit : Z) :
  0 <= offset -> 0 <= limit -> offset + limit <= MAX_UINT256 ->
  getRequestIds st offset limit
  = Some (take (Z.to_nat limit) (drop (Z.to_nat offset) (requestIds st))).
Proof.
  intros Ho Hl Hmax. unfold getRequestIds.
  destruct (Z.leb_spec (Z.of_nat (length (requestIds st))) offset) as [Hend | Hin].
  - rewrite drop_ge by lia. by rewrite take_nil.
  - destruct (Z.ltb_spec MAX_UINT256 (offset + limit)); [lia |].
    f_equal.
    destruct (Z.ltb_spec (Z.of_nat (length (requestIds st))) (offset + limit)).
    + rewrite copy_ids_spec by (rewrite ?length_replicate; lia).
      cbn [take app]. rewrite Nat.add_0_r.
      transitivity (drop (Z.to_nat offset) (requestIds st)); [| symmetry];
        apply take_ge; rewrite length_drop; lia.
    + rewrite copy_ids_spec by (rewrite ?length_replicate; lia).
      cbn [take app]. rewrite Nat.add_0_r.
      by replace (Z.to_nat (offset + limit - offset)) with (Z.to_nat limit) by lia.
Qed.

(** X7. [getRequestIds(offset, limit)] returns the window of the id list
    that starts at [offset] and has at most [limit] ids: ids
    [offset], [offset + 1], ... in the order of [requestIds], the empty
    array from the end of the list on, and never more than [limit] ids. *)
Theorem getRequestIds_window (st : state) (offset limit : Z) :
  0 <= offset -> 0 <= limit -> offset + limit <= MAX_UINT256 ->
  exists page,
    getRequestIds st offset limit = Some page
    /\ page = take (Z.to_nat limit) (drop (Z.to_nat offset) (requestIds st))
    /\ (forall i, (i < length page)%nat ->
          page !! i = requestIds st !! (Z.to_nat offset + i)%nat)
    /\ Z.of_nat (length page) <= limit
    /\ (Z.of_nat (length (requestIds st)) <= offset -> page = []).
Proof.
  intros Ho Hl Hmax. eexists. split; [by apply getRequestIds_take_drop |].
  split; [reflexivity |]. split; [| split].
  - intros i Hi. rewrite length_take in Hi.
    rewrite lookup_take_lt by lia. apply lookup_drop.
  - rewrite length_take. lia.
  - intros Hend. rewrite drop_ge by lia. apply take_nil.
Qed.

Lemma getRequestIds_window_witness :
  getRequestIds
    (run Samples.deployed
       [CallRequest 5 1000 0xa 1 (Some 11); CallRequest 5 1001 0xb 1 (Some 12);
        CallRequest 5 1002 0xc 1 (Some 13)]) 1 5
  = Some [12; 13].
Proof.
  destruct (getRequestIds_window
              (run Samples.deployed
                 [CallRequest 5 1000 0xa 1 (Some 11); CallRequest 5 1001 0xb 1 (Some 12);
                  CallRequest 5 1002 0xc 1 (Some 13)]) 1 5)
    as (page & Hpage & -> & _); [vm_compute; discriminate ..|].
  exact Hpage.
Defined.

(** X8. Pages compose: the page of [a] ids at [offset] followed by the
    page of [b] ids at [offset + a] is the page of [a + b] ids at
    [offset]. *)
Theorem getRequestIds_pages (st : state) (offset a b : Z) :
  0 <= offset -> 0 <= a -> 0 <= b -> offset + a + b <= MAX_UINT256 ->
  exists page1 page2,
    getRequestIds st offset a = Some page1
    /\ getRequestIds st (offset + a) b = Some page2
    /\ getRequestIds st offset (a + b) = Some (page1 ++ page2).
Proof.
  intros Ho Ha Hb Hmax.
  rewrite !getRequestIds_take_drop by lia.
  eexists _, _. split; [reflexivity |]. split; [reflexivity |]. f_equal.
  rewrite !Z2Nat.inj_add by lia.
  rewrite <- drop_drop. symmetry. apply take_take_drop.
Qed.

Lemma getRequestIds_pages_witness :
  exists page1 page2,
    getRequestIds
      (run Samples.deployed
         [CallRequest 5 1000 0xa 1 (Some 11); CallRequest 5 1001 0xb 1 (Some 12);
          CallRequest 5 1002 0xc 1 (Some 13)]) 0 2 = Some page1
    /\ getRequestIds
         (run Samples.deployed
            [CallRequest 5 1000 0xa 1 (Some 11); CallRequest 5 1001 0xb 1 (Some 12);
             CallRequest 5 1002 0xc 1 (Some 13)]) (0 + 2) 2 = Some page2
    /\ getRequestIds
         (run Samples.deployed
            [CallRequest 5 1000 0xa 1 (Some 11); CallRequest 5 1001 0xb 1 (Some 12);
             CallRequest 5 1002 0xc 1 (Some 13)]) 0 (2 + 2) = Some (page1 ++ page2).
Proof.
  apply getRequestIds_pages; vm_compute; discriminate.
Defined.

(** A property kept by every call holds after every run. *)
Lemma run_invariant (P : state -> Prop) :
  (forall st c, P st -> P (exec st c)) ->
  forall calls st, P st -> P (run st calls).
Proof.
  intros Hstep calls. induction calls as [| c calls IH]; intros st Hst; [exact Hst |].
  apply IH, Hstep, Hst.
Qed.

Lemma requested_ids_app log1 log2 :
  requested_ids (log1 ++ log2) = requested_ids log1 ++ requested_ids log2.
Proof. apply omap_app. Qed.

(** X9. In every state reached from deployment, [requestIds] lists the
    ids of the [RandomnessRequested] events in the order of the log,
    [getRequestCount] is their number, and [lastRequestId] is the last of
    them (0 before the first request). *)
Theorem requestIds_follow_log (deployer subscriptionId keyHash : Z) (calls : list call) :
  requestIds (run (constructor deployer subscriptionId keyHash) calls)
  = requested_ids (events (run (constructor deployer subscriptionId keyHash) calls))
  /\ getRequestCount (run (constructor deployer subscriptionId keyHash) calls)
     = Z.of_nat (length (requested_ids
                           (events (run (constructor deployer subscriptionId keyHash) calls))))
  /\ lastRequestId (run (constructor deployer subscriptionId keyHash) calls)
     = default 0 (last (requestIds (run (constructor deployer subscriptionId keyHash) calls))).
Proof.
  set (P := fun st => requestIds st = requested_ids (events st)
                      /\ lastRequestId st = default 0 (last (requestIds st))).
  assert (HP : P (run (constructor deployer subscriptionId keyHash) calls)).
  { apply run_invariant; [| by split].
    intros st c [Hids Hlast].
    destruct c as [sender now h salt coordinator | now rid ws | sender which v];
      cbn [exec].
    - unfold requestRandomness.
      destruct (isEntityProcessed st h); [by split |].
      destruct coordinator as [rid |]; [| by split].
      split; cbn.
      + by rewrite requested_ids_app, Hids.
      + by rewrite last_snoc.
    - unfold fulfillRandomWords.
      destruct (timestamp (request_at st rid) =? 0); [by split |].
      destruct (ws !! 0%nat); [| by split].
      split; cbn; [| exact Hlast].
      rewrite requested_ids_app. cbn. by rewrite app_nil_r.
    - unfold update. destruct (negb (sender =? owner st)); by split. }
  destruct HP as [Hids Hlast]. unfold getRequestCount.
  split; [exact Hids |]. split; [by rewrite Hids | exact Hlast].
Qed.

(** X10. In every state reached from deployment, each
    [RandomnessFulfilled] event of the log comes after a
    [RandomnessRequested] event with the same request id and entity
    hash. *)
Theorem fulfilled_after_requested (deployer subscriptionId keyHash : Z)
    (calls : list call) (k : nat) (rid h w : Z) :
  events (run (constructor deployer subscriptionId keyHash) calls) !! k
  = Some (RandomnessFulfilled rid h w) ->
  exists j salt sender,
    (j < k)%nat
    /\ events (run (constructor deployer subscriptionId keyHash) calls) !! j
       = Some (RandomnessRequested rid h salt sender).
Proof.
  set (P := fun st =>
    (forall rid r, s_requests st !! rid = Some r ->
       exists j, events st !! j
                 = Some (RandomnessRequested rid (entityHash r) (salt r) (requester r)))
    /\ (forall k rid h w, events st !! k = Some (RandomnessFulfilled rid h w) ->
          exists j salt sender,
            (j < k)%nat /\ events st !! j = Some (RandomnessRequested rid h salt sender))).
  assert (HP : P (run (constructor deployer subscriptionId keyHash) calls)).
  { apply run_invariant.
    - intros st c [Hrec Hord].
      destruct c as [sender now h' salt coordinator | now rid' ws | sender which v];
        cbn [exec].
      + unfold requestRandomness.
        destruct (isEntityProcessed st h'); [by split |].
        destruct coordinator as [rid' |]; [| by split].
        split; cbn [state_after s_requests events].
        * intros rid0 r. destruct (decide (rid' = rid0)) as [-> | Hne].
          -- rewrite lookup_insert_eq. intros [= <-]. cbn.
             exists (length (events st)).
             rewrite lookup_app_r by lia. by rewrite Nat.sub_diag.
          -- rewrite lookup_insert_ne by exact Hne. intros Hr.
             destruct (Hrec _ _ Hr) as [j Hj]. exists j.
             by rewrite lookup_app_l by (by eapply lookup_lt_Some).
        * intros k0 rid0 h0 w0 Hk.
          destruct (decide (k0 < length (events st))%nat) as [Hlt | Hge].
          -- rewrite lookup_app_l in Hk by exact Hlt.
             destruct (Hord _ _ _ _ Hk) as (j & s & q & Hj & Hev).
             exists j, s, q. split; [exact Hj |].
             by rewrite lookup_app_l by lia.
          -- rewrite lookup_app_r in Hk by lia.
             destruct (k0 - length (events st))%nat as [| [| n]]; discriminate.
      + unfold fulfillRandomWords, request_at.
        destruct (timestamp (default zero_request (s_requests st !! rid')) =? 0) eqn:Hts;
          [by split |].
        destruct (ws !! 0%nat) as [w' |]; [| by split].
        destruct (s_requests st !! rid') as [r0 |] eqn:Hr0; [| discriminate].
        cbn [default]. split; cbn [state_after s_requests events].
        * intros rid0 r. destruct (decide (rid' = rid0)) as [-> | Hne].
          -- rewrite lookup_insert_eq. intros [= <-]. cbn.
             destruct (Hrec _ _ Hr0) as [j Hj]. exists j.
             by rewrite lookup_app_l by (by eapply lookup_lt_Some).
          -- rewrite lookup_insert_ne by exact Hne. intros Hr.
             destruct (Hrec _ _ Hr) as [j Hj]. exists j.
             by rewrite lookup_app_l by (by eapply lookup_lt_Some).
        * intros k0 rid0 h0 w0 Hk.
          destruct (decide (k0 < length (events st))%nat) as [Hlt | Hge].
          -- rewrite lookup_app_l in Hk by exact Hlt.
             destruct (Hord _ _ _ _ Hk) as (j & s & q & Hj & Hev).
             exists j, s, q. split; [exact Hj |].
             by rewrite lookup_app_l by lia.
          -- rewrite lookup_app_r in Hk by lia.
             destruct (k0 - length (events st))%nat as [| [| n]] eqn:Hidx;
               [| discriminate | discriminate].
             cbn in Hk. injection Hk as <- <- <-.
             destruct (Hrec _ _ Hr0) as [j Hj].
             exists j, (salt r0), (requester r0).
             pose proof (lookup_lt_Some _ _ _ Hj). split; [lia |].
             by rewrite lookup_app_l by lia.
      + unfold update. destruct (negb (sender =? owner st)); by split.
    - split; cbn; intros *; [by rewrite lookup_empty | by rewrite lookup_nil]. }
  intros Hk. exact (proj2 HP k rid h w Hk).
Qed.

Lemma fulfilled_after_requested_witness :
  exists j salt sender,
    (j < 1)%nat
    /\ events (run (constructor 100 1 77)
                 [CallRequest 5 1000 0xabc 9 (Some 1); CallFulfill 1010 1 [42]]) !! j
       = Some (RandomnessRequested 1 0xabc salt sender).
Proof.
  apply (fulfilled_after_requested 100 1 77
           [CallRequest 5 1000 0xabc 9 (Some 1); CallFulfill 1010 1 [42]] 1 1 0xabc 42).
  vm_compute. reflexivity.
Defined.

End LedgerFacts.

Module RecordFacts.
Import RandomProof RandomProofViews RandomProofFacts LedgerFacts.

Lemma commitment_kept (st : state) (sender now h salt0 : Z)
    (coordinator : option Z) (rid : Z) (st1 : state) (calls : list call) :
  requestRandomness st sender now h salt0 coordinator = Ok rid st1 ->
  Forall (fun c => reuses_id rid c = false) calls ->
  entityHashToRequestId (run st1 calls) !! h = Some rid
  /\ exists r, s_requests (run st1 calls) !! rid = Some r
               /\ entityHash r = h /\ salt r = salt0
               /\ requester r = sender /\ timestamp r = now.
Proof.
  intros Hok Hcalls.
  set (P := fun st' =>
    isEntityProcessed st' h = true
    /\ entityHashToRequestId st' !! h = Some rid
    /\ exists r, s_requests st' !! rid = Some r
                 /\ entityHash r = h /\ salt r = salt0
                 /\ requester r = sender /\ timestamp r = now).
  assert (H1 : P st1).
  { pose proof (requestRandomness_ok _ _ _ _ _ _ _ _ Hok) as (Hfree & -> & Hp & Hr).
    split; [exact Hp |]. split.
    - unfold requestRandomness in Hok. rewrite Hfree in Hok.
      injection Hok as <-. cbn. apply lookup_insert_eq.
    - eexists. split; [exact Hr |]. by repeat split. }
  assert (HP : P (run st1 calls)).
  { clear Hok. revert st1 H1.
    induction Hcalls as [| c calls Hc _ IH]; intros st1 H1; [exact H1 |].
    apply IH. destruct H1 as (Hp & Hidx & r & Hr & Hfields).
    destruct c as [sender' now' h' salt' coordinator' | now' rid' ws | sender' which v];
      cbn [exec].
    - unfold requestRandomness.
      destruct (isEntityProcessed st1 h') eqn:Hp'; [by repeat split; eauto |].
      destruct coordinator' as [rid' |]; [| by repeat split; eauto].
      cbn in Hc. apply Z.eqb_neq in Hc.
      assert (Hh : h' <> h) by congruence.
      split; [| split]; cbn.
      + unfold isEntityProcessed in *. cbn. by rewrite lookup_insert_ne.
      + by rewrite lookup_insert_ne.
      + exists r. by rewrite lookup_insert_ne.
    - unfold fulfillRandomWords.
      destruct (timestamp (request_at st1 rid') =? 0); [by repeat split; eauto |].
      destruct (ws !! 0%nat) as [w |]; [| by repeat split; eauto].
      split; [exact Hp |]. split; [exact Hidx |]. cbn.
      destruct (decide (rid' = rid)) as [-> | Hne].
      + eexists. rewrite lookup_insert_eq. split; [reflexivity |].
        unfold request_at. rewrite Hr. exact Hfields.
      + exists r. by rewrite lookup_insert_ne.
    - unfold update. destruct (negb (sender' =? owner st1)); by repeat split; eauto. }
  destruct HP as (_ & Hidx & Hr). by split.
Qed.

(** X11. The commitment is immutable: after a successful submission, and
    after any further calls in which the coordinator hands out no request
    id twice, the record found by the entity hash still carries that hash,
    the salt, the requester and the time of the submission, and is the
    record stored under the request id. *)
Theorem commitment_immutable (st : state) (sender now h salt0 : Z)
    (coordinator : option Z) (rid : Z) (st1 : state) (calls : list call) :
  requestRandomness st sender now h salt0 coordinator = Ok rid st1 ->
  Forall (fun c => reuses_id rid c = false) calls ->
  entityHash (getRequestByEntityHash (run st1 calls) h) = h
  /\ salt (getRequestByEntityHash (run st1 calls) h) = salt0
  /\ requester (getRequestByEntityHash (run st1 calls) h) = sender
  /\ timestamp (getRequestByEntityHash (run st1 calls) h) = now
  /\ getRequest (run st1 calls) rid = getRequestByEntityHash (run st1 calls) h.
Proof.
  intros Hok Hcalls.
  destruct (commitment_kept _ _ _ _ _ _ _ _ calls Hok Hcalls)
    as (Hidx & r & Hr & He & Hs & Hq & Ht).
  unfold getRequestByEntityHash, getRequest, request_at. rewrite Hidx. cbn. rewrite Hr.
  by repeat split.
Qed.

Lemma commitment_immutable_witness :
  entityHash
    (getRequestByEntityHash
       (run (state_after Samples.deployed
               (requestRandomness Samples.deployed 5 1000 0xabc 9 (Some 1)))
            [CallFulfill 1010 1 [42]; CallRequest 6 1020 0xdef 9 (Some 2)]) 0xabc)
  = 0xabc.
Proof.
  refine (proj1 (commitment_immutable Samples.deployed 5 1000 0xabc 9 (Some 1) 1
                   (state_after Samples.deployed
                      (requestRandomness Samples.deployed 5 1000 0xabc 9 (Some 1)))
                   [CallFulfill 1010 1 [42]; CallRequest 6 1020 0xdef 9 (Some 2)] _ _)).
  - vm_compute. reflexivity.
  - repeat constructor.
Defined.

(** X12. A submission made at a non-zero block time, then fulfilled with a
    word [w]: the fulfillment succeeds and the record found by the entity
    hash is fulfilled with randomness [w], and is otherwise as submitted. *)
Theorem request_then_fulfill (st : state) (sender now h salt0 : Z)
    (coordinator : option Z) (rid : Z) (st1 : state) (now2 w : Z) (ws : list Z) :
  requestRandomness st sender now h salt0 coordinator = Ok rid st1 ->
  now <> 0 ->
  exists st2,
    fulfillRandomWords st1 now2 rid (w :: ws) = Ok tt st2
    /\ getRequestByEntityHash st2 h
       = {| entityHash := h; salt := salt0; randomness := w; timestamp := now;
            fulfilled := true; requester := sender |}
    /\ isEntityProcessed st2 h = true.
Proof.
  intros Hok Hnow.
  pose proof (requestRandomness_ok _ _ _ _ _ _ _ _ Hok) as (Hfree & -> & Hp & Hr).
  assert (Hidx : entityHashToRequestId st1 !! h = Some rid).
  { unfold requestRandomness in Hok. rewrite Hfree in Hok.
    injection Hok as <-. cbn. apply lookup_insert_eq. }
  unfold fulfillRandomWords, request_at. rewrite Hr. cbn.
  rewrite (proj2 (Z.eqb_neq now 0) Hnow).
  eexists. split; [reflexivity |]. split.
  - unfold getRequestByEntityHash, request_at. cbn. rewrite Hidx. cbn.
    by rewrite lookup_insert_eq.
  - exact Hp.
Qed.

Lemma request_then_fulfill_witness :
  exists st2,
    fulfillRandomWords
      (state_after Samples.deployed
         (requestRandomness Samples.deployed 5 1000 0xabc 9 (Some 1))) 1010 1 [42]
    = Ok tt st2
    /\ getRequestByEntityHash st2 0xabc
       = {| entityHash := 0xabc; salt := 9; randomness := 42; timestamp := 1000;
            fulfilled := true; requester := 5 |}
    /\ isEntityProcessed st2 0xabc = true.
Proof.
  apply (request_then_fulfill Samples.deployed 5 1000 0xabc 9 (Some 1) 1
           (state_after Samples.deployed
              (requestRandomness Samples.deployed 5 1000 0xabc 9 (Some 1)))
           1010 42 []).
  - vm_compute. reflexivity.
  - discriminate.
Defined.

(** X13. A submission made at block time 0 can never be fulfilled: the
    callback takes its record for a missing one and reverts with
    [RequestNotFound], whatever comes in between. *)
Theorem request_at_time_zero_unfulfillable (st : state) (sender h salt0 : Z)
    (coordinator : option Z) (rid : Z) (st1 : state) (calls : list call)
    (now2 : Z) (ws : list Z) :
  requestRandomness st sender 0 h salt0 coordinator = Ok rid st1 ->
  Forall (fun c => reuses_id rid c = false) calls ->
  fulfillRandomWords (run st1 calls) now2 rid ws = Revert (RequestNotFound rid).
Proof.
  intros Hok Hcalls.
  destruct (commitment_kept _ _ _ _ _ _ _ _ calls Hok Hcalls)
    as (_ & r & Hr & _ & _ & _ & Ht).
  unfold fulfillRandomWords, request_at. rewrite Hr. cbn. by rewrite Ht.
Qed.

Lemma request_at_time_zero_unfulfillable_witness :
  fulfillRandomWords
    (run (state_after Samples.deployed
            (requestRandomness Samples.deployed 5 0 0xabc 9 (Some 1))) [])
    1010 1 [42]
  = Revert (RequestNotFound 1).
Proof.
  apply (request_at_time_zero_unfulfillable Samples.deployed 5 0xabc 9 (Some 1) 1
           (state_after Samples.deployed
              (requestRandomness Samples.deployed 5 0 0xabc 9 (Some 1))) [] 1010 [42]).
  - vm_compute. reflexivity.
  - constructor.
Defined.

(** X14. In every state reached from deployment, a record that is not
    fulfilled has randomness 0, and every id in [requestIds] has a stored
    record. *)
Theorem pending_records_hold_zero (deployer subscriptionId keyHash : Z)
    (calls : list call) :
  (forall rid r,
     s_requests (run (constructor deployer subscriptionId keyHash) calls) !! rid = Some r ->
     fulfilled r = false -> randomness r = 0)
  /\ (forall rid,
        rid ∈ requestIds (run (constructor deployer subscriptionId keyHash) calls) ->
        is_Some (s_requests (run (constructor deployer subscriptionId keyHash) calls) !! rid)).
Proof.
  set (P := fun st =>
    (forall rid r, s_requests st !! rid = Some r -> fulfilled r = false -> randomness r = 0)
    /\ (forall rid, rid ∈ requestIds st -> is_Some (s_requests st !! rid))).
  apply (run_invariant P).
  - intros st c [Hzero Hids].
    destruct c as [sender now h salt coordinator | now rid' ws | sender which v];
      cbn [exec].
    + unfold requestRandomness.
      destruct (isEntityProcessed st h); [by split |].
      destruct coordinator as [rid' |]; [| by split].
      split; cbn.
      * intros rid r. destruct (decide (rid' = rid)) as [-> | Hne].
        -- rewrite lookup_insert_eq. by intros [= <-].
        -- rewrite lookup_insert_ne by exact Hne. apply Hzero.
      * intros rid Hin. apply elem_of_app in Hin as [Hin | Hin].
        -- destruct (decide (rid' = rid)) as [-> | Hne].
           ++ rewrite lookup_insert_eq. eauto.
           ++ rewrite lookup_insert_ne by exact Hne. by apply Hids.
        -- apply list_elem_of_singleton in Hin as ->. rewrite lookup_insert_eq. eauto.
    + unfold fulfillRandomWords.
      destruct (timestamp (request_at st rid') =? 0); [by split |].
      destruct (ws !! 0%nat) as [w |]; [| by split].
      split; cbn.
      * intros rid r. destruct (decide (rid' = rid)) as [-> | Hne].
        -- rewrite lookup_insert_eq. intros [= <-]. discriminate.
        -- rewrite lookup_insert_ne by exact Hne. apply Hzero.
      * intros rid Hin. destruct (decide (rid' = rid)) as [-> | Hne].
        -- rewrite lookup_insert_eq. eauto.
        -- rewrite lookup_insert_ne by exact Hne. by apply Hids.
    + unfold update. destruct (negb (sender =? owner st)); by split.
  - split; cbn.
    + intros rid r. by rewrite lookup_empty.
    + intros rid Hin. by apply elem_of_nil in Hin.
Qed.



End RecordFacts.

(** ** The Math.random driver over sequences of calls *)

Module MathDriverRunFacts.
Import JS JSFacts StringHashFacts MathRandomDriver MathRandomDriverOps MathRandomDriverFacts.

Lemma entity_hash_code_abs h : 0 <= Z.abs (entity_hash_code h) <= 2 ^ 31.
Proof. unfold entity_hash_code. pose proof (hash_code_range h). lia. Qed.

(** With [Math.random] in range neither sum is rounded. *)
Lemma fabricated_value_exact h rnd :
  0 <= rnd < 1000000 ->
  JS.add (Z.abs (entity_hash_code h)) rnd = Z.abs (entity_hash_code h) + rnd.
Proof.
  intros Hr. pose proof (entity_hash_code_abs h).
  unfold JS.add. apply round_double_small. lia.
Qed.

Lemma matured_value_exact h rnd :
  0 <= rnd < 1000000 ->
  JS.add (JS.mul (Z.abs (entity_hash_code h)) 997) rnd
  = Z.abs (entity_hash_code h) * 997 + rnd.
Proof.
  intros Hr. pose proof (entity_hash_code_abs h).
  unfold JS.add, JS.mul.
  rewrite (round_double_small (Z.abs (entity_hash_code h) * 997)) by lia.
  apply round_double_small. lia.
Qed.

Lemma driver_invariant_exec d o :
  random_in_range o -> driver_invariant d -> driver_invariant (exec d o).
Proof.
  intros Hrange [Hdisj Hval].
  destruct o as [now randomPart h salt | now rnd h |]; cbn [exec].
  - unfold requestRandomness.
    destruct (completedResults d !! h) as [v |] eqn:Hc.
    + destruct (pendingRequests d !! h); by split.
    + split; cbn.
      * intros h' v' Hc'. destruct (decide (h = h')) as [-> | Hne]; [congruence |].
        rewrite lookup_insert_ne by exact Hne. by eapply Hdisj.
      * exact Hval.
  - cbn in Hrange. unfold fetchRandomness.
    destruct (completedResults d !! h) as [v |] eqn:Hc; [by split |].
    destruct (pendingRequests d !! h) as [req |] eqn:Hp.
    + destruct (now - timestamp req <? 2000); [by split |].
      rewrite matured_value_exact by exact Hrange.
      pose proof (entity_hash_code_abs h).
      split; cbn.
      * intros h' v'. destruct (decide (h = h')) as [-> | Hne].
        -- intros _. apply lookup_delete_eq.
        -- rewrite lookup_insert_ne, lookup_delete_ne by exact Hne. apply Hdisj.
      * intros h' v'. destruct (decide (h = h')) as [-> | Hne].
        -- rewrite lookup_insert_eq. intros [= <-]. unfold VALUE_BOUND. lia.
        -- rewrite lookup_insert_ne by exact Hne. apply Hval.
    + rewrite fabricated_value_exact by exact Hrange.
      pose proof (entity_hash_code_abs h).
      split; cbn.
      * intros h' v'. destruct (decide (h = h')) as [-> | Hne].
        -- intros _. exact Hp.
        -- rewrite lookup_insert_ne by exact Hne. apply Hdisj.
      * intros h' v'. destruct (decide (h = h')) as [-> | Hne].
        -- rewrite lookup_insert_eq. intros [= <-]. unfold VALUE_BOUND. lia.
        -- rewrite lookup_insert_ne by exact Hne. apply Hval.
  - split; cbn; intros h v; by rewrite lookup_empty.
Qed.

Lemma driver_invariant_run ops :
  Forall random_in_range ops -> driver_invariant (run empty ops).
Proof.
  intros Hops.
  assert (H0 : driver_invariant empty).
  { split; cbn; intros h v; by rewrite lookup_empty. }
  revert H0. unfold run. generalize empty.
  induction Hops as [| o ops Ho _ IH]; intros d Hd; [exact Hd |].
  apply IH. by apply driver_invariant_exec.
Qed.

(** X16. Starting from a new driver, no entity hash is ever both waiting
    and completed; asking again for a completed hash therefore always
    takes the second exit of [requestRandomness]: the id is [0x], the
    first 16 characters of the hash and [_completed], and nothing
    changes. *)
Theorem completed_hash_is_not_pending (ops : list op) (h : jsstring) (v now : Z)
    (randomPart saltBytes32 : jsstring) :
  Forall random_in_range ops ->
  completedResults (run empty ops) !! h = Some v ->
  pendingRequests (run empty ops) !! h = None
  /\ requestRandomness (run empty ops) now randomPart h saltBytes32
     = (js "0x" ++ take 16 h ++ js "_completed", run empty ops).
Proof.
  intros Hops Hc. destruct (driver_invariant_run ops Hops) as [Hdisj _].
  pose proof (Hdisj h v Hc) as Hp. split; [exact Hp |].
  unfold requestRandomness. by rewrite Hc, Hp.
Qed.

Lemma completed_hash_is_not_pending_witness :
  requestRandomness
    (run empty [OpRequest 1000 (js "k3j9x2a") (js "abc") Keccak.ZERO_BYTES32;
                OpFetch 3500 7 (js "abc")])
    4000 (js "zzzzzzz") (js "abc") Keccak.ZERO_BYTES32
  = (js "0xabc_completed",
     run empty [OpRequest 1000 (js "k3j9x2a") (js "abc") Keccak.ZERO_BYTES32;
                OpFetch 3500 7 (js "abc")]).
Proof.
  refine (proj2 (completed_hash_is_not_pending
                   [OpRequest 1000 (js "k3j9x2a") (js "abc") Keccak.ZERO_BYTES32;
                    OpFetch 3500 7 (js "abc")]
                   (js "abc") (96354 * 997 + 7) 4000 (js "zzzzzzz")
                   Keccak.ZERO_BYTES32 _ _)).
  - repeat constructor; cbn; lia.
  - vm_compute. reflexivity.
Defined.

(** X17. Starting from a new driver, with [Math.random] in its range,
    every [fetchRandomness] returns a number from 0 to
    2^31 * 997 + 999999: never negative, and a safe integer. *)
Theorem fetchRandomness_range (ops : list op) (now rnd : Z) (h : jsstring) :
  Forall random_in_range ops -> 0 <= rnd < 1000000 ->
  0 <= fst (fetchRandomness (run empty ops) now rnd h) <= VALUE_BOUND
  /\ isSafeInteger (fst (fetchRandomness (run empty ops) now rnd h)) = true.
Proof.
  intros Hops Hrnd.
  assert (Hr : 0 <= fst (fetchRandomness (run empty ops) now rnd h) <= VALUE_BOUND).
  { destruct (driver_invariant_run ops Hops) as [_ Hval].
    pose proof (entity_hash_code_abs h).
    unfold fetchRandomness.
    destruct (completedResults (run empty ops) !! h) as [v |] eqn:Hc.
    - cbn. by eapply Hval.
    - destruct (pendingRequests (run empty ops) !! h) as [req |].
      + destruct (now - timestamp req <? 2000); cbn; [unfold VALUE_BOUND; lia |].
        rewrite matured_value_exact by exact Hrnd. unfold VALUE_BOUND. lia.
      + cbn. rewrite fabricated_value_exact by exact Hrnd. unfold VALUE_BOUND. lia. }
  split; [exact Hr |].
  unfold isSafeInteger, MAX_SAFE_INTEGER. unfold VALUE_BOUND in Hr.
  apply Z.leb_le. lia.
Qed.

Lemma fetchRandomness_range_witness :
  0 <= fst (fetchRandomness
              (run empty [OpRequest 1000 (js "k3j9x2a") (js "abc") Keccak.ZERO_BYTES32])
              3500 7 (js "abc")) <= VALUE_BOUND.
Proof.
  refine (proj1 (fetchRandomness_range
                   [OpRequest 1000 (js "k3j9x2a") (js "abc") Keccak.ZERO_BYTES32]
                   3500 7 (js "abc") _ _)).
  - repeat constructor.
  - lia.
Defined.

(** X18. A request that has waited 2000 ms or more is fulfilled by the
    next [fetchRandomness]: it returns [|hash| * 997] plus the random
    term, moves the entity hash from the waiting map to the completed one,
    and every later fetch returns the same value. *)
Theorem fetchRandomness_matured (d : t) (now rnd : Z) (h : jsstring)
    (req : PendingRequest) (now' rnd' : Z) :
  completedResults d !! h = None ->
  pendingRequests d !! h = Some req ->
  2000 <= now - timestamp req ->
  0 <= rnd < 1000000 ->
  fst (fetchRandomness d now rnd h) = Z.abs (entity_hash_code h) * 997 + rnd
  /\ pendingRequests (snd (fetchRandomness d now rnd h)) !! h = None
  /\ completedResults (snd (fetchRandomness d now rnd h)) !! h
     = Some (Z.abs (entity_hash_code h) * 997 + rnd)
  /\ fetchRandomness (snd (fetchRandomness d now rnd h)) now' rnd' h
     = (Z.abs (entity_hash_code h) * 997 + rnd, snd (fetchRandomness d now rnd h)).
Proof.
  intros Hc Hp Hold Hrnd.
  assert (Hf : fetchRandomness d now rnd h
               = (Z.abs (entity_hash_code h) * 997 + rnd,
                  persistData
                    {| pendingRequests := delete h (pendingRequests d);
                       completedResults :=
                         <[h := Z.abs (entity_hash_code h) * 997 + rnd]> (completedResults d);
                       persisted := persisted d |})).
  { unfold fetchRandomness. rewrite Hc, Hp.
    destruct (Z.ltb_spec (now - timestamp req) 2000); [lia |].
    by rewrite matured_value_exact. }
  rewrite Hf. cbn [fst snd].
  split; [reflexivity |].
  split; [cbn; apply lookup_delete_eq |].
  split; [cbn; apply lookup_insert_eq |].
  apply fetchRandomness_completed. cbn. apply lookup_insert_eq.
Qed.

Lemma fetchRandomness_matured_witness :
  fst (fetchRandomness
         (snd (requestRandomness empty 1000 (js "k3j9x2a") (js "abc") Keccak.ZERO_BYTES32))
         3500 7 (js "abc"))
  = 96354 * 997 + 7.
Proof.
  refine (proj1 (fetchRandomness_matured
                   (snd (requestRandomness empty 1000 (js "k3j9x2a") (js "abc")
                           Keccak.ZERO_BYTES32))
                   3500 7 (js "abc")
                   {| transactionId := js "0x3e8k3j9x2a";
                      saltBytes32 := Keccak.ZERO_BYTES32; timestamp := 1000 |}
                   0 0 _ _ _ _)).
  - vm_compute. reflexivity.
  - vm_compute. reflexivity.
  - vm_compute. discriminate.
  - lia.
Defined.

(** X19. Calls about one entity hash leave every other entity hash as it
    was: its waiting request and its completed result are unchanged by a
    request or a fetch for a different hash. *)
Theorem other_hashes_untouched (d : t) (o : op) (h h' : jsstring) :
  match o with
  | OpRequest _ _ entityHash _ => entityHash = h
  | OpFetch _ _ entityHash => entityHash = h
  | OpClear => False
  end ->
  h' <> h ->
  pendingRequests (exec d o) !! h' = pendingRequests d !! h'
  /\ completedResults (exec d o) !! h' = completedResults d !! h'.
Proof.
  intros Ho Hne.
  destruct o as [now randomPart e salt | now rnd e |]; [subst e | subst e | done];
    cbn [exec].
  - unfold requestRandomness.
    destruct (completedResults d !! h).
    + destruct (pendingRequests d !! h); by split.
    + cbn. by rewrite lookup_insert_ne.
  - unfold fetchRandomness.
    destruct (completedResults d !! h); [by split |].
    destruct (pendingRequests d !! h) as [req |].
    + destruct (now - timestamp req <? 2000); [by split |].
      cbn. by rewrite lookup_delete_ne, lookup_insert_ne.
    + cbn. by rewrite lookup_insert_ne.
Qed.

Lemma other_hashes_untouched_witness :
  pendingRequests
    (exec (snd (requestRandomness empty 1000 (js "k3j9x2a") (js "abc") Keccak.ZERO_BYTES32))
       (OpFetch 3500 7 (js "xyz"))) !! js "abc"
  = pendingRequests
      (snd (requestRandomness empty 1000 (js "k3j9x2a") (js "abc") Keccak.ZERO_BYTES32))
      !! js "abc".
Proof.
  refine (proj1 (other_hashes_untouched _ (OpFetch 3500 7 (js "xyz"))
                   (js "xyz") (js "abc") _ _)).
  - reflexivity.
  - discriminate.
Defined.

End MathDriverRunFacts.

(** ** The API3 driver: numbers, polling, retries *)

Module API3RunFacts.
Import JS JSFacts HexFacts API3QRNGDriver API3QRNGDriverOps.

Lemma parseRandomNumber_range rn v :
  parseRandomNumber rn = Some v -> 0 < v <= MAX_SAFE_INTEGER.
Proof.
  unfold parseRandomNumber.
  destruct (parseInt16 _) as [value |]; [| discriminate].
  unfold isSafeInteger.
  destruct (Z.leb_spec (Z.abs value) MAX_SAFE_INTEGER); [| discriminate].
  destruct (Z.leb_spec value 0); [discriminate |].
  cbn. intros [= <-]. lia.
Qed.

Lemma toString16_head v :
  0 <= v -> exists c s, toString16 v = c :: s /\ is_hex_digit c = true.
Proof.
  intros Hv. pose proof (toString16_is_hex v Hv) as Hh.
  rewrite toString16_nonneg in * by exact Hv.
  pose proof (hex_digits_nonempty (Z.to_nat (Z.log2 v)) v) as Hne.
  destruct (hex_digits _ v []) as [| c s]; [done |].
  apply Forall_cons in Hh as [Hc _]. by exists c, s.
Qed.

(** X20. [parseRandomNumber] accepts exactly positive safe integers: what
    it returns lies between 1 and 2^53 - 1, and every such number written
    in base 16, with or without the [0x] prefix, is read back as
    itself. *)
Theorem parseRandomNumber_round_trip (v : Z) :
  0 < v <= MAX_SAFE_INTEGER ->
  parseRandomNumber (js "0x" ++ toString16 v) = Some v
  /\ parseRandomNumber (toString16 v) = Some v
  /\ (forall rn w, parseRandomNumber rn = Some w -> 0 < w <= MAX_SAFE_INTEGER).
Proof.
  intros Hv.
  assert (Hparse : parseInt16 (toString16 v) = Some v)
    by (apply parseInt16_toString16; lia).
  assert (Hsafe : isSafeInteger v = true).
  { unfold isSafeInteger. apply Z.leb_le. lia. }
  assert (Hpos : (v <=? 0) = false) by (apply Z.leb_gt; lia).
  split; [| split].
  - transitivity (match parseInt16 (toString16 v) with
                  | Some value =>
                      if negb (isSafeInteger value) || (value <=? 0) then None
                      else Some value
                  | None => None
                  end); [reflexivity |].
    by rewrite Hparse, Hsafe, Hpos.
  - unfold parseRandomNumber.
    destruct (toString16_head v ltac:(lia)) as (c & s & Hs & Hc).
    assert (Hsame : match toString16 v with
                    | 48%N :: 120%N :: rest => rest
                    | _ => toString16 v
                    end = toString16 v).
    { pose proof (toString16_is_hex v ltac:(lia)) as Hh. rewrite Hs in *.
      destruct s as [| x s']; [by destruct c as [| p]; repeat (destruct p; try done) |].
      apply Forall_cons in Hh as [_ Hh]. apply Forall_cons in Hh as [Hx _].
      assert (x <> 120%N) by (intros ->; discriminate).
      destruct c as [| p]; [done |].
      do 6 (try destruct p as [p | p |]); try reflexivity.
      destruct x as [| q]; [done |].
      do 7 (try destruct q as [q | q |]); try reflexivity; congruence. }
    rewrite Hsame. by rewrite Hparse, Hsafe, Hpos.
  - apply parseRandomNumber_range.
Qed.

Lemma parseRandomNumber_round_trip_witness :
  parseRandomNumber (js "0x" ++ toString16 48879) = Some 48879.
Proof.
  refine (proj1 (parseRandomNumber_round_trip 48879 _)).
  vm_compute. split; [reflexivity | discriminate].
Defined.

Lemma fetchRandomness_cases d h api r d' :
  fetchRandomness d h api = (r, d') ->
  (r = 0 /\ d' = d)
  \/ (exists rid, d' = forget d h rid
                  /\ (r = 0 \/ exists rn, parseRandomNumber rn = Some r)).
Proof.
  unfold fetchRandomness.
  destruct (entityHashToRequestId d !! h) as [rid |]; [| intros [= <- <-]; by left].
  destruct (bool_decide (rid = [])); [intros [= <- <-]; by left |].
  destruct api as [response |]; [| intros [= <- <-]; by left].
  destruct (response_status response); try (intros [= <- <-]; by left).
  - destruct (randomNumber response) as [rn |]; [| intros [= <- <-]; by left].
    destruct (bool_decide (rn = [])); [intros [= <- <-]; by left |].
    destruct (parseRandomNumber rn) as [v |] eqn:Hv; intros [= <- <-]; right;
      exists rid; split; eauto.
  - intros [= <- <-]. right. exists rid. split; eauto.
Qed.

(** X21. [fetchRandomness] never throws and returns 0 or a positive safe
    integer; when it returns a positive number it has dropped the entity
    hash from its index, so that the next fetch for the same hash returns
    0 whatever the service answers. *)
Theorem fetchRandomness_result (d : t) (h : jsstring) (api api2 : api_result QRNGResponse) :
  0 <= fst (fetchRandomness d h api) <= MAX_SAFE_INTEGER
  /\ (0 < fst (fetchRandomness d h api) ->
        entityHashToRequestId (snd (fetchRandomness d h api)) !! h = None
        /\ fst (fetchRandomness (snd (fetchRandomness d h api)) h api2) = 0).
Proof.
  assert (Hmax : 0 <= MAX_SAFE_INTEGER) by (unfold MAX_SAFE_INTEGER; lia).
  destruct (fetchRandomness d h api) as [r d'] eqn:Hf. cbn [fst snd].
  apply fetchRandomness_cases in Hf as [[-> ->] | (rid & -> & Hr)].
  - split; [lia |]. lia.
  - assert (Hgone : entityHashToRequestId (forget d h rid) !! h = None)
      by (cbn; apply lookup_delete_eq).
    split.
    + destruct Hr as [-> | (rn & Hrn)]; [lia |].
      apply parseRandomNumber_range in Hrn. lia.
    + intros _. split; [exact Hgone |].
      unfold fetchRandomness. by rewrite Hgone.
Qed.

(** X22. Polling is harmless: a sequence of status answers none of which
    ends the wait (pending, unknown status, a thrown error, completed
    without a number) leaves the driver exactly as it was. *)
Theorem poll_keeps_state (d : t) (h : jsstring) (apis : list (api_result QRNGResponse)) :
  Forall (fun api => ends_wait api = false) apis ->
  poll d h apis = d
  /\ Forall (fun api => fetchRandomness d h api = (0, d)) apis.
Proof.
  assert (Hone : forall api, ends_wait api = false -> fetchRandomness d h api = (0, d)).
  { intros api Hapi. unfold fetchRandomness.
    destruct (entityHashToRequestId d !! h) as [rid |]; [| reflexivity].
    destruct (bool_decide (rid = [])); [reflexivity |].
    destruct api as [response |]; [| reflexivity].
    unfold ends_wait in Hapi.
    destruct (response_status response); try reflexivity; try discriminate.
    destruct (randomNumber response) as [rn |]; [| reflexivity].
    destruct (bool_decide (rn = [])); [reflexivity | discriminate]. }
  intros Hapis. split.
  - unfold poll. induction Hapis as [| api apis Hapi _ IH]; [reflexivity |].
    cbn [foldl]. by rewrite (Hone api Hapi).
  - eapply Forall_impl; [exact Hapis |]. exact Hone.
Qed.

Lemma poll_keeps_state_witness :
  poll (snd (default ([], empty)
               (requestRandomness empty 3 1000 Samples.sample_hash (js "salt")
                  [Responded (js "req-1")])))
    Samples.sample_hash
    [Responded {| response_status := pending; randomNumber := None |}; Thrown]
  = snd (default ([], empty)
           (requestRandomness empty 3 1000 Samples.sample_hash (js "salt")
              [Responded (js "req-1")])).
Proof.
  refine (proj1 (poll_keeps_state _ Samples.sample_hash
                   [Responded {| response_status := pending; randomNumber := None |};
                    Thrown] _)).
  repeat constructor.
Defined.

Lemma attempt_first_answer d now h salt apis k rid :
  (forall j, (j < k)%nat -> apis !! j = Some Thrown) ->
  apis !! k = Some (Responded rid) ->
  attempt d now h salt apis = makeQRNGRequest d now h salt (Responded rid).
Proof.
  revert apis. induction k as [| k IH]; intros apis Hbefore Hk.
  - destruct apis as [| api apis]; [discriminate |].
    cbn in Hk. injection Hk as ->. reflexivity.
  - destruct apis as [| api apis]; [discriminate |].
    pose proof (Hbefore 0%nat ltac:(lia)) as H0. cbn in H0. injection H0 as ->.
    cbn [attempt makeQRNGRequest]. apply IH.
    + intros j Hj. apply (Hbefore (S j)). lia.
    + exact Hk.
Qed.

Lemma attempt_all_thrown d now h salt apis :
  Forall (fun api => api = Thrown) apis -> attempt d now h salt apis = None.
Proof. induction 1 as [| api apis -> _ IH]; [reflexivity | exact IH]. Qed.

(** X23. [requestRandomness] with valid inputs returns the request id of
    the first attempt that the service answers, provided it is one of the
    [retryAttempts] first, and records it under the entity hash; with a
    malformed entity hash, or when every allowed attempt throws, it
    throws. *)
Theorem requestRandomness_first_answer (d : t) (retryAttempts : nat) (now : Z)
    (h salt : jsstring) (apis : list (api_result jsstring)) (k : nat) (rid : jsstring) :
  validateInputs h salt = true ->
  (k < retryAttempts)%nat ->
  (forall j, (j < k)%nat -> apis !! j = Some Thrown) ->
  apis !! k = Some (Responded rid) ->
  exists d',
    requestRandomness d retryAttempts now h salt apis = Some (rid, d')
    /\ entityHashToRequestId d' !! h = Some rid
    /\ (forall h2 salt2 apis2, validateInputs h2 salt2 = false ->
          requestRandomness d retryAttempts now h2 salt2 apis2 = None)
    /\ (forall apis2, Forall (fun api => api = Thrown) (take retryAttempts apis2) ->
          requestRandomness d retryAttempts now h salt apis2 = None).
Proof.
  intros Hvalid Hk Hbefore Hans.
  eexists. split; [| split; [| split]].
  - unfold requestRandomness. rewrite Hvalid.
    rewrite (attempt_first_answer _ _ _ _ _ k rid).
    + reflexivity.
    + intros j Hj. rewrite lookup_take_lt by lia. by apply Hbefore.
    + by rewrite lookup_take_lt.
  - cbn. apply lookup_insert_eq.
  - intros h2 salt2 apis2 Hbad. unfold requestRandomness. by rewrite Hbad.
  - intros apis2 Hthrown. unfold requestRandomness. rewrite Hvalid.
    by apply attempt_all_thrown.
Qed.

Lemma requestRandomness_first_answer_witness :
  exists d',
    requestRandomness empty 3 1000 Samples.sample_hash (js "salt")
      [Thrown; Responded (js "req-7"); Responded (js "req-8")]
    = Some (js "req-7", d')
    /\ entityHashToRequestId d' !! Samples.sample_hash = Some (js "req-7").
Proof.
  destruct (requestRandomness_first_answer empty 3 1000 Samples.sample_hash (js "salt")
              [Thrown; Responded (js "req-7"); Responded (js "req-8")] 1 (js "req-7"))
    as (d' & H1 & H2 & _).
  - vm_compute. reflexivity.
  - lia.
  - intros [| j] Hj; [reflexivity | lia].
  - reflexivity.
  - exists d'. by split.
Defined.

Lemma retry_loop_positive turns d h apis k v d' :
  retry_loop turns d h apis k = (Some v, d') -> 0 < v.
Proof.
  revert d k. induction turns as [| turns IH]; intros d k; cbn [retry_loop]; [discriminate |].
  destruct (fetchRandomness d h (apis k)) as [result d1].
  destruct (Z.ltb_spec 0 result) as [Hpos | Hle].
  - by intros [= <- _].
  - apply IH.
Qed.

Lemma retry_loop_waiting turns d h apis k :
  (forall j, ends_wait (apis j) = false) ->
  retry_loop turns d h apis k = (None, d).
Proof.
  intros Hwait. revert k. induction turns as [| turns IH]; intros k; [reflexivity |].
  cbn [retry_loop].
  destruct (poll_keeps_state d h [apis k] ltac:(by repeat constructor)) as [_ Hf].
  apply Forall_cons in Hf as [Hf _]. rewrite Hf. cbn. apply IH.
Qed.

(** X24. [fetchRandomnessWithRetry] returns only positive numbers; while
    the service keeps answering without ending the wait it gives up
    after [maxRetries] fetches with an error and the driver unchanged. *)
Theorem fetchRandomnessWithRetry_result (maxRetries : nat) (d : t) (h : jsstring)
    (apis : nat -> api_result QRNGResponse) :
  (forall v d', fetchRandomnessWithRetry maxRetries d h apis = (Some v, d') -> 0 < v)
  /\ ((forall j, ends_wait (apis j) = false) ->
      fetchRandomnessWithRetry maxRetries d h apis = (None, d)).
Proof.
  split.
  - intros v d'. apply retry_loop_positive.
  - apply retry_loop_waiting.
Qed.

(** X25. Cancelling a request removes it from the pending requests only:
    the entity hash stays in the index, so a later [fetchRandomness] for
    it returns what it would have returned without the cancellation. *)
Theorem cancelRequest_keeps_index (d : t) (rid h : jsstring) (cancel : api_result unit)
    (api : api_result QRNGResponse) :
  entityHashToRequestId (snd (cancelRequest d rid cancel)) = entityHashToRequestId d
  /\ fst (fetchRandomness (snd (cancelRequest d rid cancel)) h api)
     = fst (fetchRandomness d h api)
  /\ (fst (cancelRequest d rid cancel) = true ->
        pendingRequests (snd (cancelRequest d rid cancel)) !! rid = None)
  /\ (getPendingRequestsCount (snd (cancelRequest d rid cancel))
      <= getPendingRequestsCount d)%nat.
Proof.
  destruct cancel as [[] |]; cbn [cancelRequest fst snd].
  - split; [reflexivity |]. split.
    + unfold fetchRandomness. cbn [entityHashToRequestId].
      destruct (entityHashToRequestId d !! h) as [rid' |]; [| reflexivity].
      destruct (bool_decide (rid' = [])); [reflexivity |].
      destruct api as [response |]; [| reflexivity].
      destruct (response_status response); try reflexivity.
      destruct (randomNumber response) as [rn |]; [| reflexivity].
      destruct (bool_decide (rn = [])); [reflexivity |].
      by destruct (parseRandomNumber rn).
    + split; [intros _; cbn; apply lookup_delete_eq |].
      unfold getPendingRequestsCount. cbn.
      rewrite map_size_delete. destruct (pendingRequests d !! rid); simpl; lia.
  - split; [reflexivity |]. split; [reflexivity |]. split; [discriminate | lia].
Qed.

End API3RunFacts.

(** ** Submission, verification and the winners *)

Module WorkflowFacts.
Import JS JSFacts Shuffle ShuffleFacts WinnerSelection WinnerSelectionFacts Orchestration.

Lemma split_newline_nonempty s : split_newline s <> [].
Proof.
  destruct s as [| c s]; cbn; [discriminate |].
  destruct (c =? 10)%N; [discriminate |].
  destruct (split_newline s); discriminate.
Qed.

Lemma join_newline_cons line lines :
  lines <> [] -> join_newline (line :: lines) = line ++ 10%N :: join_newline lines.
Proof. destruct lines; [done | reflexivity]. Qed.

(** X26. Splitting a text at its line feeds and joining the lines with
    line feeds gives the text back, and no line holds a line feed. *)
Theorem join_split_newline (s : jsstring) :
  join_newline (split_newline s) = s
  /\ Forall (fun line => 10%N ∉ line) (split_newline s).
Proof.
  induction s as [| c s [IHjoin IHlines]]; cbn [split_newline].
  - split; [reflexivity |]. constructor; [apply not_elem_of_nil | constructor].
  - destruct (N.eqb_spec c 10) as [-> | Hc].
    + split.
      * rewrite join_newline_cons by apply split_newline_nonempty.
        cbn. by rewrite IHjoin.
      * constructor; [apply not_elem_of_nil | exact IHlines].
    + pose proof (split_newline_nonempty s) as Hne.
      destruct (split_newline s) as [| line lines]; [done |].
      apply Forall_cons in IHlines as [Hline Hlines].
      split.
      * destruct lines as [| l2 lines]; cbn in *; by rewrite <- IHjoin.
      * constructor; [| exact Hlines].
        intros Hin. apply elem_of_cons in Hin as [Heq | Hin]; [congruence | done].
Qed.

(** The order of [sort()] is a total order on strings. *)
Lemma lex_leb_total x y : lex_leb x y = true \/ lex_leb y x = true.
Proof.
  revert y. induction x as [| a x IH]; intros [| b y]; cbn; auto.
  destruct (N.ltb_spec a b), (N.ltb_spec b a); auto; lia.
Qed.

Lemma lex_leb_trans x y z : lex_leb x y = true -> lex_leb y z = true -> lex_leb x z = true.
Proof.
  revert y z. induction x as [| a x IH]; intros [| b y] [| c z]; cbn; try done.
  destruct (N.ltb_spec a b), (N.ltb_spec b a), (N.ltb_spec b c), (N.ltb_spec c b),
    (N.ltb_spec a c), (N.ltb_spec c a); try done; try lia.
  apply IH.
Qed.

Lemma lex_leb_antisym x y : lex_leb x y = true -> lex_leb y x = true -> x = y.
Proof.
  revert y. induction x as [| a x IH]; intros [| b y]; cbn; try done.
  destruct (N.ltb_spec a b), (N.ltb_spec b a); try done; try lia.
  intros H1 H2. f_equal; [lia | by apply IH].
Qed.

#[local] Instance lex_le_total : Total lex_le.
Proof. intros x y. apply lex_leb_total. Qed.

#[local] Instance lex_le_trans : Transitive lex_le.
Proof. intros x y z. apply lex_leb_trans. Qed.

#[local] Instance lex_le_antisym : AntiSymm (=) lex_le.
Proof. intros x y. apply lex_leb_antisym. Qed.

(** Sorting forgets the order the lines came in. *)
Lemma sort_Permutation lines1 lines2 : lines1 ≡ₚ lines2 -> sort lines1 = sort lines2.
Proof.
  intros Hp. unfold sort. apply (Sorted_unique lex_le).
  - apply Sorted_merge_sort. apply _.
  - apply Sorted_merge_sort. apply _.
  - by rewrite !merge_sort_Permutation.
Qed.

Section WithPlatform.
Variable encode : jsstring -> list Z.
Variable digest_sha256 : list Z -> list Z.
Variable keccak256 : jsstring -> option (list Z).

(** X27. With pre-sort on, the committed data and the entity hash do not
    depend on the order of the lines nor on blank lines: two inputs whose
    non-blank lines are the same up to order are processed to the same
    text and get the same entity hash. *)
Theorem presort_is_canonical (input1 input2 salt : jsstring) :
  filter nonblank (split_newline input1) ≡ₚ filter nonblank (split_newline input2) ->
  processData true input1 = processData true input2
  /\ fst (handleSubmit encode digest_sha256 keccak256 input1 salt true)
     = fst (handleSubmit encode digest_sha256 keccak256 input2 salt true).
Proof.
  intros Hp.
  assert (Hd : processData true input1 = processData true input2).
  { unfold processData. by rewrite (sort_Permutation _ _ Hp). }
  split; [exact Hd |]. unfold handleSubmit. cbn [fst]. by rewrite Hd.
Qed.

(** X28. Manual verification succeeds on the data, salt and pre-sort
    choice of the submission, and with pre-sort on also when the lines
    come in another order; whenever it succeeds the salt entered is the
    stored salt and the recomputed hash is the stored entity hash. *)
Theorem verifyManually_sound_complete (inputData salt manualInputData : jsstring)
    (preSort : bool) :
  (if preSort
   then filter nonblank (split_newline manualInputData)
        ≡ₚ filter nonblank (split_newline inputData)
   else manualInputData = inputData) ->
  verifyManually encode digest_sha256
    (fst (handleSubmit encode digest_sha256 keccak256 inputData salt preSort)) salt
    manualInputData salt preSort = true
  /\ (forall storeEntityHash storeSalt data manualSalt flag,
        verifyManually encode digest_sha256 storeEntityHash storeSalt data manualSalt flag
        = true ->
        manualSalt = storeSalt
        /\ Hashing.sha256Hash encode digest_sha256 (processData flag data ++ manualSalt)
           = storeEntityHash).
Proof.
  intros Hsame. split.
  - assert (Hd : processData preSort manualInputData = processData preSort inputData).
    { destruct preSort; [| exact Hsame].
      unfold processData. by rewrite (sort_Permutation _ _ Hsame). }
    unfold verifyManually, handleSubmit. cbn [fst]. rewrite Hd.
    by rewrite !bool_decide_eq_true_2.
  - intros E S data ms flag. unfold verifyManually.
    intros Hv. apply andb_true_iff in Hv as [H1 H2].
    apply bool_decide_eq_true_1 in H1. apply bool_decide_eq_true_1 in H2. by split.
Qed.

End WithPlatform.

Lemma presort_is_canonical_witness :
  processData true Texts.entered = processData true Texts.reordered.
Proof.
  refine (proj1 (presort_is_canonical (map Z.of_N) (fun bs => bs) (fun _ => None)
                   Texts.entered Texts.reordered (js "s1") _)).
  vm_compute. apply (Permutation_app_comm [_; _] [_]).
Defined.

Lemma verifyManually_sound_complete_witness :
  verifyManually (map Z.of_N) (fun bs => bs)
    (fst (handleSubmit (map Z.of_N) (fun bs => bs) (fun _ => None)
            Texts.entered (js "s1") true))
    (js "s1") Texts.reordered (js "s1") true = true.
Proof.
  refine (proj1 (verifyManually_sound_complete (map Z.of_N) (fun bs => bs) (fun _ => None)
                   Texts.entered (js "s1") Texts.reordered true _)).
  vm_compute. apply (Permutation_app_comm [_] [_; _]).
Defined.

End WorkflowFacts.

Module WinnerFacts.
Import JS JSFacts Shuffle ShuffleFacts WinnerSelection WinnerSelectionFacts Orchestration.

Section WithGenerator.
Context {G : RandomSource}.

(** X29. From the input text to the winners: with a non-zero random
    value and a positive winner count [N], the winners are the first [N]
    shuffled entries; they are drawn from the non-blank lines of the
    input without repetition (a line wins at most as often as it occurs),
    there are [min N (number of lines)] of them, and none is blank. *)
Theorem winners_come_from_lines (c : component) (v : Z) (inputData : jsstring) :
  0 < numberOfWinners c -> v <> 0 ->
  filter nonblank (split_newline inputData) <> [] ->
  winners (onShuffled c (shuffledEntries (Some v) inputData))
  = take (Z.to_nat (numberOfWinners c)) (shuffledEntries (Some v) inputData)
  /\ winners (onShuffled c (shuffledEntries (Some v) inputData))
     ⊆+ filter nonblank (split_newline inputData)
  /\ length (winners (onShuffled c (shuffledEntries (Some v) inputData)))
     = Nat.min (Z.to_nat (numberOfWinners c))
         (length (filter nonblank (split_newline inputData)))
  /\ Forall nonblank (winners (onShuffled c (shuffledEntries (Some v) inputData))).
Proof.
  intros HN Hv Hlines.
  set (lines := filter nonblank (split_newline inputData)) in *.
  assert (Hinput : inputData <> []).
  { intros ->. apply Hlines. reflexivity. }
  assert (Hsh : shuffledEntries (Some v) inputData = shuffled_value lines v).
  { unfold shuffledEntries.
    rewrite (proj2 (Z.eqb_neq v 0) Hv), (bool_decide_eq_false_2 _ Hinput). reflexivity. }
  assert (Hperm : shuffled_value lines v ≡ₚ lines)
    by apply fisher_yates_list_Permutation.
  rewrite Hsh.
  assert (Hlen : length (shuffled_value lines v) = length lines)
    by (by apply Permutation_length).
  assert (Hpos : (0 < length lines)%nat).
  { destruct lines; [done | simpl; lia]. }
  assert (Hw : winners (onShuffled c (shuffled_value lines v))
               = take (Z.to_nat (numberOfWinners c)) (shuffled_value lines v)).
  { unfold onShuffled.
    assert (H1 : (0 <? length (shuffled_value lines v))%nat = true)
      by (apply Nat.ltb_lt; lia).
    assert (H2 : (0 <? numberOfWinners c) = true) by (apply Z.ltb_lt; lia).
    rewrite H1, H2. cbn [andb autoPickWinners winners shuffledEntries numberOfWinners].
    apply slice_from_start. lia. }
  rewrite Hw. split; [reflexivity |]. split; [| split].
  - transitivity (shuffled_value lines v); [apply submseteq_take |].
    by apply Permutation_submseteq.
  - by rewrite length_take, Hlen.
  - apply Forall_take, Forall_forall. intros line Hin.
    assert (Hin' : line ∈ lines).
    { apply list_elem_of_In. eapply Permutation_in; [exact Hperm |].
      by apply list_elem_of_In. }
    unfold lines in Hin'. apply list_elem_of_filter in Hin'. tauto.
Qed.

End WithGenerator.

Lemma winners_come_from_lines_witness :
  winners (onShuffled Samples.three_entries
             (shuffledEntries (G := mt19937) (Some 42) Texts.entered))
  ⊆+ filter nonblank (split_newline Texts.entered).
Proof.
  refine (proj1 (proj2 (winners_come_from_lines (G := mt19937) Samples.three_entries 42
                          Texts.entered _ _ _))).
  - vm_compute. reflexivity.
  - discriminate.
  - vm_compute. discriminate.
Defined.

Lemma init_seed_mod s k :
  MersenneTwister.init_seed (s + k * 2 ^ 32) = MersenneTwister.init_seed s.
Proof.
  unfold MersenneTwister.init_seed, to_uint32. by rewrite Z_mod_plus_full.
Qed.

Lemma round_double_large z :
  2 ^ 85 <= Z.abs z -> exists m, round_double z = m * 2 ^ 32.
Proof.
  intros Hz. unfold round_double.
  destruct (Z.ltb_spec (Z.abs z) (2 ^ 53)); [lia |].
  assert (Hlog : 85 <= Z.log2 (Z.abs z)) by (apply Z.log2_le_pow2; lia).
  set (e := Z.log2 (Z.abs z) - 52).
  set (q' := if _ <? _ then _ else _).
  exists (Z.sgn z * q' * 2 ^ (e - 32)).
  replace (2 ^ e) with (2 ^ (e - 32) * 2 ^ 32).
  - lia.
  - rewrite <- Z.pow_add_r by lia. f_equal. lia.
Qed.

(** X30. Of the seed only the low 32 bits count: with the Mersenne
    Twister, two integer seeds that differ by a multiple of 2^32 give the
    same shuffle, and a seed whose magnitude as a number is 2^85 or more
    (all its low 32 bits are zero) shuffles exactly like the seed 0. *)
Theorem seed_low_32_bits (h : heap) (array : loc) (seed k z : Z) :
  shuffleArray (G := mt19937) h array (seed + k * 2 ^ 32)
  = shuffleArray (G := mt19937) h array seed
  /\ (2 ^ 85 <= Z.abs z ->
      shuffleArray (G := mt19937) h array (round_double z)
      = shuffleArray (G := mt19937) h array 0).
Proof.
  assert (Hshift : forall s j,
    shuffleArray (G := mt19937) h array (s + j * 2 ^ 32)
    = shuffleArray (G := mt19937) h array s).
  { intros s j. unfold shuffleArray. cbn [rs_seed mt19937].
    by rewrite init_seed_mod. }
  split; [apply Hshift |].
  intros Hz. destruct (round_double_large z Hz) as [m ->].
  apply (Hshift 0 m).
Qed.

End WinnerFacts.
